(** * polkit-pkla-compat: local authority decision engine and admin resolver

    Shallow embedding of
    - [src/src/polkitbackend/pkla-check-authorization.c] (decision engine of
      the [pkla-check-authorization] program, store ordering, [main]),
    - [src/unnamed/part_002] (the GObject local authority's
      [check_authorization_sync], which receives the host's [implicit];
      its store paths, store list and the rebuild on a top-level change),
    - [src/src/polkitbackend/pkla-admin-identities.c] (admin resolver,
      group and netgroup expansion; [src/unnamed/part_003] is the same code),
    - [src/unnamed/part_000] (how the test suite reads the program's output).

    The OS databases ([getpwuid], [getgrouplist], [getgrgid], [getnetgrent]),
    identity parsing and the config key-file reader are external
    collaborators; they are fields of the record [Env]. *)

From Stdlib Require Import String Ascii List Bool ZArith Arith Lia.
From Stdlib Require Import Sorting.Sorted Sorting.Permutation.
Import ListNotations.
Open Scope string_scope.

(* ------------------------------------------------------------------ *)
(** ** Vocabulary *)

(** [PolkitImplicitAuthorization] *)
Inductive ImplicitAuthorization :=
| Unknown
| NotAuthorized
| AuthenticationRequired
| AdministratorAuthenticationRequired
| AuthenticationRequiredRetained
| AdministratorAuthenticationRequiredRetained
| Authorized.

Definition ia_eqb (a b : ImplicitAuthorization) : bool :=
  match a, b with
  | Unknown, Unknown | NotAuthorized, NotAuthorized
  | AuthenticationRequired, AuthenticationRequired
  | AdministratorAuthenticationRequired, AdministratorAuthenticationRequired
  | AuthenticationRequiredRetained, AuthenticationRequiredRetained
  | AdministratorAuthenticationRequiredRetained,
    AdministratorAuthenticationRequiredRetained
  | Authorized, Authorized => true
  | _, _ => false
  end.

Definition is_unknown (a : ImplicitAuthorization) : bool := ia_eqb a Unknown.

(** [polkit_implicit_authorization_to_string] (libpolkit) *)
Definition polkit_implicit_authorization_to_string
  (a : ImplicitAuthorization) : string :=
  match a with
  | Unknown => "unknown"
  | NotAuthorized => "no"
  | AuthenticationRequired => "auth_self"
  | AdministratorAuthenticationRequired => "auth_admin"
  | AuthenticationRequiredRetained => "auth_self_keep"
  | AdministratorAuthenticationRequiredRetained => "auth_admin_keep"
  | Authorized => "yes"
  end.

(** [PolkitIdentity]: the three implementations used here. *)
Inductive Identity :=
| UnixUser (uid : Z)
| UnixGroup (gid : Z)
| UnixNetgroup (name : string).

Definition is_unix_user (i : Identity) : bool :=
  match i with UnixUser _ => true | _ => false end.

(** [PolkitDetails] *)
Definition Details := list (string * string).

(** Result of a store lookup: [(ret_any, ret_inactive, ret_active)]. *)
Definition Outcomes := (ImplicitAuthorization * ImplicitAuthorization
                        * ImplicitAuthorization)%type.

(** [%d] of a non-negative integer. *)
Fixpoint decimal_aux (fuel n : nat) (acc : string) : string :=
  match fuel with
  | O => acc
  | S f =>
      let acc' := String (ascii_of_nat (48 + n mod 10)) acc in
      if Nat.ltb n 10 then acc' else decimal_aux f (n / 10) acc'
  end.

Definition decimal (n : nat) : string := decimal_aux (S n) n "".

(* ------------------------------------------------------------------ *)
(** ** External collaborators *)

(** Error of [polkit_backend_config_source_get_string_list]. *)
Inductive KeyFileError := KeyNotFound | OtherKeyFileError.

(** The environment: OS databases, identity parsing and the config file. *)
Record Env := {
  (** [getpwuid]: [(pw_name, pw_gid)] *)
  env_getpwuid : Z -> option (string * Z);
  (** the full group list of a user that [getgrouplist] reports *)
  env_user_groups : string -> Z -> list Z;
  (** [getgrgid]: [gr_mem] *)
  env_getgrgid : Z -> option (list string);
  (** [polkit_unix_user_new_for_name]: uid of a user name *)
  env_user_for_name : string -> option Z;
  (** [setnetgrent] / [getnetgrent]: the triples (host, user, domain) *)
  env_netgrent : string -> option (list (option string * option string
                                         * option string));
  (** [polkit_identity_from_string] *)
  env_identity_from_string : string -> option Identity;
  (** [get_string_list ("Configuration", "AdminIdentities")] *)
  env_admin_identities : list string + KeyFileError
}.

(** [getgrouplist (name, gid, groups, &ngroups)] with a buffer of [bufsize]
    entries: fails ([< 0]) when the user has more groups than fit. *)
Definition getgrouplist (env : Env) (name : string) (gid : Z) (bufsize : nat)
  : option (list Z) :=
  let gs := env_user_groups env name gid in
  if Nat.leb (length gs) bufsize then Some gs else None.

(* ------------------------------------------------------------------ *)
(** ** [get_groups_for_user] *)

(** The groups of a user, in the order of the returned [GList], and the
    warnings logged. The loop prepends, so the list is the reverse of the
    OS order. *)
Definition get_groups_for_user_logged (env : Env) (uid : Z)
  : list string * list Identity :=
  match env_getpwuid env uid with
  | None => (["No user with uid"], [])
  | Some (pw_name, pw_gid) =>
      match getgrouplist env pw_name pw_gid 512 with
      | None => (["Error looking up groups for uid"], [])
      | Some groups =>
          ([], fold_left (fun result g => UnixGroup g :: result) groups [])
      end
  end.

Definition get_groups_for_user (env : Env) (uid : Z) : list Identity :=
  snd (get_groups_for_user_logged env uid).

(* ------------------------------------------------------------------ *)
(** ** Decision engines *)

Section Engine.

(** An authorization store and its lookup
    ([polkit_backend_local_authorization_store_lookup]); [None] as the
    identity is the C [NULL]. *)
Variable Store : Type.
Variable store_lookup :
  Store -> option Identity -> string -> Details -> option Outcomes.

(** *** [pkla-check-authorization.c] *)

(** The slot chosen in [update_ret_from_authorization_store]. *)
Definition relevant_ret (subject_is_local subject_is_active : bool)
  (o : Outcomes) : ImplicitAuthorization :=
  let '(ret_any, ret_inactive, ret_active) := o in
  if subject_is_local && subject_is_active then ret_active
  else if subject_is_local then ret_inactive
  else ret_any.

(** One store in [update_ret_from_authorization_store]. *)
Definition update_step (subject_is_local subject_is_active : bool)
  (ret : ImplicitAuthorization) (o : Outcomes) : ImplicitAuthorization :=
  let r := relevant_ret subject_is_local subject_is_active o in
  if negb (is_unknown r) then r else ret.

Definition update_ret_from_authorization_store (stores : list Store)
  (ret : ImplicitAuthorization) (identity : option Identity)
  (subject_is_local subject_is_active : bool) (action_id : string)
  (details : Details) : ImplicitAuthorization :=
  fold_left
    (fun ret store =>
       match store_lookup store identity action_id details with
       | Some o => update_step subject_is_local subject_is_active ret o
       | None => ret
       end) stores ret.

(** [polkit_backend_local_authority_check_authorization_sync] of
    [pkla-check-authorization.c]; the user is [unix-user:uid]. *)
Definition check_authorization_sync_cli (env : Env) (stores : list Store)
  (uid : Z) (subject_is_local subject_is_active : bool)
  (action_id : string) (details : Details) : ImplicitAuthorization :=
  let ret := Unknown in
  (* First check for default entries *)
  let ret := update_ret_from_authorization_store stores ret None
               subject_is_local subject_is_active action_id details in
  (* Then lookup for all groups the user belong to *)
  let ret := fold_left
               (fun ret group =>
                  update_ret_from_authorization_store stores ret (Some group)
                    subject_is_local subject_is_active action_id details)
               (get_groups_for_user env uid) ret in
  (* Then do it for the user *)
  update_ret_from_authorization_store stores ret (Some (UnixUser uid))
    subject_is_local subject_is_active action_id details.

(** *** [src/unnamed/part_002] *)

(** The inlined branch of the library loop. *)
Definition lib_step (subject_is_local subject_is_active : bool)
  (ret : ImplicitAuthorization) (o : Outcomes) : ImplicitAuthorization :=
  let '(ret_any, ret_inactive, ret_active) := o in
  if subject_is_local && subject_is_active then
    (if negb (is_unknown ret_active) then ret_active else ret)
  else if subject_is_local then
    (if negb (is_unknown ret_inactive) then ret_inactive else ret)
  else
    (if negb (is_unknown ret_any) then ret_any else ret).

Definition lib_pass (stores : list Store) (ret : ImplicitAuthorization)
  (identity : Identity) (subject_is_local subject_is_active : bool)
  (action_id : string) (details : Details) : ImplicitAuthorization :=
  fold_left
    (fun ret store =>
       match store_lookup store (Some identity) action_id details with
       | Some o => lib_step subject_is_local subject_is_active ret o
       | None => ret
       end) stores ret.

(** [polkit_backend_local_authority_check_authorization_sync] of the
    library authority: starts from [implicit]; groups, then the user. *)
Definition check_authorization_sync_lib (env : Env) (stores : list Store)
  (uid : Z) (subject_is_local subject_is_active : bool)
  (action_id : string) (details : Details)
  (implicit : ImplicitAuthorization) : ImplicitAuthorization :=
  let ret := implicit in
  let ret := fold_left
               (fun ret group =>
                  lib_pass stores ret group subject_is_local
                    subject_is_active action_id details)
               (get_groups_for_user env uid) ret in
  lib_pass stores ret (UnixUser uid) subject_is_local subject_is_active
    action_id details.

End Engine.

(* ------------------------------------------------------------------ *)
(** ** [main] of [pkla-check-authorization.c] *)

(** [parse_boolean]; [None] is the [G_OPTION_ERROR_BAD_VALUE] error. *)
Definition parse_boolean (arg : string) : option bool :=
  if arg =? "true" then Some true
  else if arg =? "false" then Some false
  else None.

Definition newline : string := String (ascii_of_nat 10) EmptyString.

(** What a run of the program leaves behind. *)
Record RunResult := {
  exit_status : Z;
  stdout : string;
  stderr : list string
}.


(* ------------------------------------------------------------------ *)
(** ** [add_all_authorization_stores] *)

Inductive FileType := Directory | RegularFile | OtherFile.

(** What [g_file_enumerate_children] yields for one top-level path: it
    fails, or it returns entries, possibly followed by an error. *)
Inductive Enumeration :=
| EnumFailed
| Enumerated (entries : list (string * FileType)) (error_after : bool).

(** A subdirectory ([g_file_get_child]) with its ["sort-key"] data. *)
Record DirEntry := {
  dir_toplevel : nat;
  dir_name : string;
  sort_key : string
}.

(** The inner [while] loop for top-level [n]: subdirectories are
    prepended. Entries read before an enumeration error stay. *)
Definition add_toplevel (n : nat) (e : Enumeration)
  (directories : list DirEntry) : list DirEntry :=
  match e with
  | EnumFailed => directories
  | Enumerated entries _ =>
      fold_left
        (fun ds '(name, ty) =>
           match ty with
           | Directory =>
               {| dir_toplevel := n; dir_name := name;
                  sort_key := name ++ "-" ++ decimal n |} :: ds
           | _ => ds
           end) entries directories
  end.

(** The outer [for] loop over the top-level paths. *)
Fixpoint gather_directories (n : nat) (toplevels : list Enumeration)
  (directories : list DirEntry) : list DirEntry :=
  match toplevels with
  | [] => directories
  | t :: ts => gather_directories (S n) ts (add_toplevel n t directories)
  end.

(** [authorization_store_path_compare_func]: [g_strcmp0] on the keys. *)
Definition authorization_store_path_compare_func (a b : DirEntry)
  : comparison :=
  String.compare (sort_key a) (sort_key b).

Fixpoint insert_sorted (d : DirEntry) (l : list DirEntry) : list DirEntry :=
  match l with
  | [] => [d]
  | y :: ys =>
      match authorization_store_path_compare_func d y with
      | Gt => y :: insert_sorted d ys
      | _ => d :: y :: ys
      end
  end.

(** [g_list_sort], a stable sort: an insertion sort from the right keeps
    elements with equal keys in their input order. *)
Definition g_list_sort (l : list DirEntry) : list DirEntry :=
  fold_right insert_sorted [] l.

(** The directories, in the order in which the stores are added. *)
Definition add_all_authorization_stores (toplevels : list Enumeration)
  : list DirEntry :=
  g_list_sort (gather_directories 0 toplevels []).

(* ------------------------------------------------------------------ *)
(** ** Admin resolver of [pkla-admin-identities.c] *)

(** [get_users_in_group]: members are prepended, then the list reversed. *)
Definition get_users_in_group (env : Env) (gid : Z) (include_root : bool)
  : list Identity :=
  match env_getgrgid env gid with
  | None => []
  | Some gr_mem =>
      rev (fold_left
             (fun ret m =>
                if negb include_root && (m =? "root") then ret
                else match env_user_for_name env m with
                     | None => ret
                     | Some uid => UnixUser uid :: ret
                     end) gr_mem [])
  end.

(** [get_users_in_net_group]: [include_root] is not read. *)
Definition get_users_in_net_group (env : Env) (name : string)
  (include_root : bool) : list Identity :=
  match env_netgrent env name with
  | None => []
  | Some triples =>
      rev (fold_left
             (fun ret '(hostname, username, domainname) =>
                match username with
                | None => ret
                | Some u =>
                    if u =? "-" then ret
                    else match env_user_for_name env u with
                         | None => ret
                         | Some uid => UnixUser uid :: ret
                         end
                end) triples [])
  end.

(** One entry of the [AdminIdentities] loop. *)
Definition admin_step (env : Env) (ret : list Identity) (s : string)
  : list Identity :=
  match env_identity_from_string env s with
  | None => ret
  | Some (UnixUser uid) => ret ++ [UnixUser uid]
  | Some (UnixGroup gid) => ret ++ get_users_in_group env gid false
  | Some (UnixNetgroup name) => ret ++ get_users_in_net_group env name false
  end.

Definition admin_loop (env : Env) (ret : list Identity) (entries : list string)
  : list Identity :=
  fold_left (admin_step env) entries ret.

(** [polkit_backend_local_authority_get_admin_auth_identities]. *)
Definition get_admin_auth_identities (env : Env) : list Identity :=
  let ret :=
    match env_admin_identities env with
    | inr _ => []
    | inl admin_identities => admin_loop env [] admin_identities
    end in
  match ret with
  | [] => [UnixUser 0]
  | _ => ret
  end.

(** [polkit_backend_local_authority_get_admin_auth_identities] of
    [src/unnamed/part_001] (the program run by the test suite with [-c]):
    parsed identities are kept as they are, with no expansion and no
    fallback to uid 0. *)
Definition get_admin_auth_identities_part_001 (env : Env) : list Identity :=
  match env_admin_identities env with
  | inr _ => []
  | inl admin_identities =>
      fold_left (fun ret s => match env_identity_from_string env s with
                              | None => ret
                              | Some i => (ret ++ [i])%list
                              end) admin_identities []
  end.

(* ------------------------------------------------------------------ *)
(** ** Authorization store *)

(** Modelled from the spec: [polkitbackendlocalauthorizationstore.c] (the
    store and its lookup) is not among the sources. Per the spec, a rule
    has identity strings, action globs ([*] matches any substring, anchored),
    detail constraints and three outcomes; the [NULL] identity matches rules
    listing ["default"], another identity matches its canonical string;
    the last matching rule of a store wins. *)
Record Rule := {
  rule_identities : list string;
  rule_actions : list string;
  rule_details : Details;
  result_any : ImplicitAuthorization;
  result_inactive : ImplicitAuthorization;
  result_active : ImplicitAuthorization
}.

Definition identity_to_string (i : Identity) : string :=
  match i with
  | UnixUser uid => "unix-user:" ++ decimal (Z.to_nat uid)
  | UnixGroup gid => "unix-group:" ++ decimal (Z.to_nat gid)
  | UnixNetgroup name => "unix-netgroup:" ++ name
  end.

Fixpoint glob_match (p s : string) : bool :=
  match p with
  | EmptyString => match s with EmptyString => true | _ => false end
  | String c p' =>
      if Ascii.eqb c "*"%char then
        (fix star (s : string) : bool :=
           glob_match p' s ||
           match s with EmptyString => false | String _ s' => star s' end) s
      else
        match s with
        | EmptyString => false
        | String d s' => Ascii.eqb c d && glob_match p' s'
        end
  end.

Definition rule_matches (r : Rule) (identity : option Identity)
  (action_id : string) (details : Details) : bool :=
  let who := match identity with
             | None => "default"
             | Some i => identity_to_string i
             end in
  existsb (String.eqb who) (rule_identities r)
  && existsb (fun g => glob_match g action_id) (rule_actions r)
  && forallb (fun '(k, v) =>
                existsb (fun '(k', v') => (k =? k') && (v =? v')) details)
       (rule_details r).

Definition RuleStore := list Rule.

Definition rule_store_lookup (store : RuleStore) (identity : option Identity)
  (action_id : string) (details : Details) : option Outcomes :=
  fold_left
    (fun acc r =>
       if rule_matches r identity action_id details
       then Some (result_any r, result_inactive r, result_active r)
       else acc) store None.

(* ------------------------------------------------------------------ *)
(** ** Authority state: paths, stores, rebuilds *)

(** One split step of [g_strsplit (s, ";", 0)]: every [';'] ends a token. *)
Fixpoint split_semicolons (s : string) : list string :=
  match s with
  | EmptyString => [""]
  | String c s' =>
      let rest := split_semicolons s' in
      if Ascii.eqb c ";"%char then "" :: rest
      else match rest with
           | t :: ts => String c t :: ts
           | [] => [String c ""]
           end
  end.

(** [g_strsplit (paths, ";", 0)]: the empty string gives the empty vector. *)
Definition g_strsplit_semicolon (s : string) : list string :=
  match s with
  | EmptyString => []
  | _ => split_semicolons s
  end.

(** [PolkitBackendLocalAuthorityPrivate]; a store is named by its
    directory. *)
Record LocalAuthorityPriv := {
  authorization_store_paths : list string;
  authorization_stores : list DirEntry
}.

(** What enumerating a top-level path yields. *)
Definition FileSystem := string -> Enumeration.

(** [polkit_backend_local_authority_init] (after the [memset]). *)
Definition local_authority_init : LocalAuthorityPriv :=
  {| authorization_store_paths := []; authorization_stores := [] |}.

(** [polkit_backend_local_authority_set_auth_store_paths] and the
    [auth-store-paths] property setter. *)
Definition set_auth_store_paths (priv : LocalAuthorityPriv) (paths : string)
  : LocalAuthorityPriv :=
  {| authorization_store_paths := g_strsplit_semicolon paths;
     authorization_stores := authorization_stores priv |}.

(** [purge_all_authorization_stores] *)
Definition purge_all_authorization_stores (priv : LocalAuthorityPriv)
  : LocalAuthorityPriv :=
  {| authorization_store_paths := authorization_store_paths priv;
     authorization_stores := [] |}.

(** [add_one_authorization_store]: [g_list_append]. *)
Definition add_one_authorization_store (priv : LocalAuthorityPriv)
  (directory : DirEntry) : LocalAuthorityPriv :=
  {| authorization_store_paths := authorization_store_paths priv;
     authorization_stores := (authorization_stores priv ++ [directory])%list |}.

(** [add_all_authorization_stores] on the authority state. *)
Definition add_all_authorization_stores_priv (priv : LocalAuthorityPriv)
  (fs : FileSystem) : LocalAuthorityPriv :=
  fold_left add_one_authorization_store
    (add_all_authorization_stores (map fs (authorization_store_paths priv)))
    priv.

(** [on_toplevel_authority_store_monitor_changed]: purge, then rebuild. *)
Definition on_toplevel_authority_store_monitor_changed
  (priv : LocalAuthorityPriv) (fs : FileSystem) : LocalAuthorityPriv :=
  add_all_authorization_stores_priv (purge_all_authorization_stores priv) fs.

(** The authority of [main]: init, set paths, constructed. *)
Definition construct_local_authority (paths : string) (fs : FileSystem)
  : LocalAuthorityPriv :=
  add_all_authorization_stores_priv
    (set_auth_store_paths local_authority_init paths) fs.

(* ------------------------------------------------------------------ *)
(** ** Test harness of [src/unnamed/part_000] *)

(** [polkit_implicit_authorization_from_string] (libpolkit). *)
Definition polkit_implicit_authorization_from_string (s : string)
  : option ImplicitAuthorization :=
  if s =? "no" then Some NotAuthorized
  else if s =? "auth_self" then Some AuthenticationRequired
  else if s =? "auth_admin" then Some AdministratorAuthenticationRequired
  else if s =? "auth_self_keep" then Some AuthenticationRequiredRetained
  else if s =? "auth_admin_keep" then
    Some AdministratorAuthenticationRequiredRetained
  else if s =? "yes" then Some Authorized
  else None.

(** The test drops one final ['\n']. *)
Fixpoint drop_final_newline (s : string) : string :=
  match s with
  | EmptyString => EmptyString
  | String c EmptyString =>
      if Ascii.eqb c (ascii_of_nat 10) then EmptyString else s
  | String c s' => String c (drop_final_newline s')
  end.

(** [test_check_authorization_sync]: how the test reads the program's
    stdout; [None] is a failed [g_assert (ok)]. *)
Definition test_decode_stdout (stdout_ : string)
  : option ImplicitAuthorization :=
  match drop_final_newline stdout_ with
  | EmptyString => Some Unknown
  | s => polkit_implicit_authorization_from_string s
  end.

(* ------------------------------------------------------------------ *)
(** ** Loading the stores and [main] of [pkla-check-authorization.c] *)

(** The warnings [add_all_authorization_stores] logs while enumerating the
    top-levels, in path order. *)
Definition enumeration_warnings (fs : FileSystem) (paths : list string)
  : list string :=
  flat_map (fun toplevel_path =>
              match fs toplevel_path with
              | EnumFailed => ["Error getting enumerator for " ++ toplevel_path]
              | Enumerated _ true => ["Error enumerating files in " ++ toplevel_path]
              | Enumerated _ false => []
              end) paths.

(** The outcome of [g_option_context_parse]: an error, [--help] (GLib
    prints the help on stdout and exits with 0), or the [-p] value and the
    remaining arguments (with [argv[0]]). *)
Inductive OptionParse :=
| OptionParseFailed (message : string)
| OptionHelp (help : string)
| OptionsParsed (auth_paths : option string) (argv : list string).

Section Main.

Variable Store : Type.
Variable store_lookup :
  Store -> option Identity -> string -> Details -> option Outcomes.
(** [polkit_backend_local_authorization_store_new (directory, ".pkla")]:
    the store and the warnings it logs while loading. *)
Variable store_new : DirEntry -> Store * list string.
(** [PACKAGE_LOCALSTATE_DIR] and [PACKAGE_SYSCONF_DIR]. *)
Variable package_localstate_dir package_sysconf_dir : string.

Definition auth_paths_or_default (auth_paths : option string) : string :=
  match auth_paths with
  | Some p => p
  | None => package_localstate_dir ++ "/lib/polkit-1/localauthority;"
            ++ package_sysconf_dir ++ "/polkit-1/localauthority"
  end.

(** The stores [polkit_backend_local_authority_constructed] creates, in
    order, each with what it logged. *)
Definition loaded_stores (fs : FileSystem) (paths : string)
  : list (Store * list string) :=
  map store_new (authorization_stores (construct_local_authority paths fs)).

(** Everything logged while constructing: the enumeration warnings, then
    those of each store as it is added. *)
Definition load_warnings (fs : FileSystem) (paths : string) : list string :=
  (enumeration_warnings fs (g_strsplit_semicolon paths)
   ++ flat_map snd (loaded_stores fs paths))%list.

(** [main]. [g_warning] goes to stderr; the engine's [get_groups_for_user]
    logs after the stores are loaded. On an invalid user, [error_priv]
    unrefs the [NULL] user, a GLib critical. [PolkitDetails] is empty. *)
Definition pkla_check_authorization_main (env : Env) (fs : FileSystem)
  (opts : OptionParse) : RunResult :=
  match opts with
  | OptionParseFailed message =>
      {| exit_status := 1; stdout := ""; stderr := [message] |}
  | OptionHelp help =>
      {| exit_status := 0; stdout := help; stderr := [] |}
  | OptionsParsed auth_paths argv =>
      match argv with
      | [_; user; local; active; action_id] =>
          let paths := auth_paths_or_default auth_paths in
          let stores := map fst (loaded_stores fs paths) in
          let warnings := load_warnings fs paths in
          match env_user_for_name env user with
          | None =>
              {| exit_status := 1; stdout := "";
                 stderr := (warnings ++ ["Invalid user";
                                         "g_object_unref: assertion failed"])%list |}
          | Some uid =>
              match parse_boolean local with
              | None =>
                  {| exit_status := 1; stdout := "";
                     stderr := (warnings ++ ["Invalid boolean"])%list |}
              | Some subject_is_local =>
                  match parse_boolean active with
                  | None =>
                      {| exit_status := 1; stdout := "";
                         stderr := (warnings ++ ["Invalid boolean"])%list |}
                  | Some subject_is_active =>
                      let result :=
                        check_authorization_sync_cli Store store_lookup env
                          stores uid subject_is_local subject_is_active
                          action_id [] in
                      {| exit_status := 0;
                         stdout :=
                           if negb (is_unknown result) then
                             polkit_implicit_authorization_to_string result
                               ++ newline
                           else "";
                         stderr :=
                           (warnings
                            ++ fst (get_groups_for_user_logged env uid))%list |}
                  end
              end
          end
      | _ =>
          {| exit_status := 1; stdout := "";
             stderr := ["unexpected number of arguments"] |}
      end
  end.

End Main.

(* ------------------------------------------------------------------ *)
(** ** Concrete configurations *)

(** Users root (0), john (500), sally (1000), many (2000, 600 groups);
    group admin (10) has members root, john and an unknown name; netgroup
    bar has the triples (-, root, -), (h, "-", -), (-, -, -), (-, john, -). *)
Definition test_env : Env := {|
  env_getpwuid := fun uid =>
    if (uid =? 0)%Z then Some ("root", 0%Z)
    else if (uid =? 500)%Z then Some ("john", 500%Z)
    else if (uid =? 1000)%Z then Some ("sally", 1000%Z)
    else if (uid =? 2000)%Z then Some ("many", 2000%Z)
    else None;
  env_user_groups := fun name gid =>
    if name =? "many" then map Z.of_nat (seq 0 600)
    else if name =? "john" then [gid; 10%Z]
    else [gid];
  env_getgrgid := fun gid =>
    if (gid =? 0)%Z then Some ["root"]
    else if (gid =? 10)%Z then Some ["root"; "john"; "ghost"]
    else None;
  env_user_for_name := fun n =>
    if n =? "root" then Some 0%Z
    else if n =? "john" then Some 500%Z
    else if n =? "sally" then Some 1000%Z
    else None;
  env_netgrent := fun n =>
    if n =? "bar" then
      Some [(None, Some "root", None); (Some "h", Some "-", None);
            (None, None, None); (None, Some "john", None)]
    else None;
  env_identity_from_string := fun s =>
    if s =? "unix-user:root" then Some (UnixUser 0)
    else if s =? "unix-group:admin" then Some (UnixGroup 10)
    else if s =? "unix-netgroup:bar" then Some (UnixNetgroup "bar")
    else None;
  env_admin_identities :=
    inl ["unix-user:root"; "unix-netgroup:bar"; "unix-group:admin"]
|}.

(** [test_env] with another [AdminIdentities] item. *)
Definition with_admin_identities (env : Env) (cfg : list string + KeyFileError)
  : Env := {|
  env_getpwuid := env_getpwuid env;
  env_user_groups := env_user_groups env;
  env_getgrgid := env_getgrgid env;
  env_user_for_name := env_user_for_name env;
  env_netgrent := env_netgrent env;
  env_identity_from_string := env_identity_from_string env;
  env_admin_identities := cfg
|}.

(** A store with one rule for [default] on the defaults-test action. *)
Definition defaults_rule : Rule := {|
  rule_identities := ["default"];
  rule_actions := ["com.example.awesomeproduct.*"];
  rule_details := [];
  result_any := NotAuthorized;
  result_inactive := Unknown;
  result_active := AuthenticationRequired
|}.

(** A rule for group 10 (admin) with no opinion for active subjects. *)
Definition admin_group_rule : Rule := {|
  rule_identities := ["unix-group:10"];
  rule_actions := ["com.example.awesomeproduct.defaults-test"];
  rule_details := [];
  result_any := Unknown;
  result_inactive := Unknown;
  result_active := Unknown
|}.

(** A rule for user 500 (john): authorized when local and active. *)
Definition john_rule : Rule := {|
  rule_identities := ["unix-user:500"];
  rule_actions := ["com.example.awesomeproduct.*"];
  rule_details := [];
  result_any := NotAuthorized;
  result_inactive := NotAuthorized;
  result_active := Authorized
|}.

(** Two top-levels, [/var/lib/...] (index 0) and [/etc/...] (index 1),
    each with one subdirectory; every other path cannot be enumerated. *)
Definition test_fs : FileSystem := fun p =>
  if p =? "/var/lib/polkit-1/localauthority" then
    Enumerated [("10-vendor.d", Directory); ("README", RegularFile)] false
  else if p =? "/etc/polkit-1/localauthority" then
    Enumerated [("50-local.d", Directory)] false
  else EnumFailed.

(** The store loaded from a directory: silent. *)
Definition test_store_new (d : DirEntry) : RuleStore * list string :=
  if dir_name d =? "10-vendor.d" then ([defaults_rule], [])
  else if dir_name d =? "50-local.d" then ([admin_group_rule], [])
  else ([], []).

Definition test_paths : string :=
  "/var/lib/polkit-1/localauthority;/etc/polkit-1/localauthority".

Definition test_stores : list RuleStore := [[defaults_rule]; [admin_group_rule]].

Definition defaults_action : string := "com.example.awesomeproduct.defaults-test".

(** Eleven top-level paths, each with a subdirectory [d]. *)
Definition eleven_toplevels : list Enumeration :=
  repeat (Enumerated [("d", Directory); ("x.pkla", RegularFile)] false) 11.

(** Helpers of the statements. *)

(** Stores whose lookup has no opinion in the selected slot. *)
Definition undecided {Store : Type}
  (lookup : Store -> option Identity -> string -> Details -> option Outcomes)
  (l a : bool) (action_id : string) (details : Details) (identity : Identity)
  (s : Store) : Prop :=
  match lookup s (Some identity) action_id details with
  | None => True
  | Some o => relevant_ret l a o = Unknown
  end.

Definition key_le (x y : DirEntry) : Prop :=
  String.compare (sort_key x) (sort_key y) <> Gt.

Definition key_of_entry (x : DirEntry) : Prop :=
  sort_key x = dir_name x ++ "-" ++ decimal (dir_toplevel x).

(** The user a group member contributes. *)
Definition member_user (env : Env) (include_root : bool) (m : string)
  : option Identity :=
  if negb include_root && (m =? "root") then None
  else option_map UnixUser (env_user_for_name env m).

(** The user a netgroup triple contributes. *)
Definition triple_user (env : Env)
  (t : option string * option string * option string) : option Identity :=
  let '(_, username, _) := t in
  match username with
  | None => None
  | Some u => if u =? "-" then None
              else option_map UnixUser (env_user_for_name env u)
  end.

(** [s] has no character [c]. *)
Fixpoint excludes_char (c : ascii) (s : string) : bool :=
  match s with
  | EmptyString => true
  | String d s' => negb (Ascii.eqb d c) && excludes_char c s'
  end.

(** [undecided] for any identity argument, [NULL] included. *)
Definition undecided_at {Store : Type}
  (lookup : Store -> option Identity -> string -> Details -> option Outcomes)
  (l a : bool) (action_id : string) (details : Details)
  (identity : option Identity) (s : Store) : Prop :=
  match lookup s identity action_id details with
  | None => True
  | Some o => relevant_ret l a o = Unknown
  end.

(** Two enumerations of a top-level that list the same entries, in any
    order. *)
Definition same_entries (e1 e2 : Enumeration) : Prop :=
  match e1, e2 with
  | EnumFailed, EnumFailed => True
  | Enumerated es1 _, Enumerated es2 _ => Permutation es1 es2
  | _, _ => False
  end.

(** The value of a string of decimal digits. *)
Fixpoint decimal_value_aux (acc : nat) (s : string) : nat :=
  match s with
  | EmptyString => acc
  | String c s' => decimal_value_aux (acc * 10 + (nat_of_ascii c - 48)) s'
  end.

Definition opt_list {A : Type} (o : option A) : list A :=
  match o with None => [] | Some y => [y] end.

Example decimal_ex : map decimal [0; 7; 10; 42; 123] = ["0"; "7"; "10"; "42"; "123"].
Proof. reflexivity. Qed.

Example glob_ex :
  map (fun '(p, s) => glob_match p s)
    [("com.*.foo", "com.example.foo"); ("com.*", "org.x"); ("*", "");
     ("a*b*c", "aXXbYc"); ("a*b", "ab"); ("a*b", "abc")]
  = [true; false; true; true; true; false].
Proof. reflexivity. Qed.

Example groups_ex :
  get_groups_for_user test_env 500 = [UnixGroup 10; UnixGroup 500]
  /\ get_groups_for_user test_env 2000 = []
  /\ get_groups_for_user test_env 77 = [].
Proof. vm_compute. auto. Qed.

Example admin_ex :
  get_admin_auth_identities test_env = [UnixUser 0; UnixUser 0; UnixUser 500; UnixUser 500].
Proof. vm_compute. reflexivity. Qed.

Example admin_part_001_ex :
  get_admin_auth_identities_part_001 test_env
  = [UnixUser 0; UnixNetgroup "bar"; UnixGroup 10]
  /\ get_admin_auth_identities_part_001
       (with_admin_identities test_env (inr KeyNotFound)) = [].
Proof. vm_compute. split; reflexivity. Qed.

Example order_ex :
  map dir_toplevel (add_all_authorization_stores eleven_toplevels)
  = [0; 1; 10; 2; 3; 4; 5; 6; 7; 8; 9].
Proof. vm_compute. reflexivity. Qed.

Example check_ex :
  check_authorization_sync_cli RuleStore rule_store_lookup test_env test_stores
    1000 true true defaults_action [] = AuthenticationRequired
  /\ check_authorization_sync_lib RuleStore rule_store_lookup test_env test_stores
    1000 true true defaults_action [] Unknown = Unknown.
Proof. vm_compute. auto. Qed.

(* ------------------------------------------------------------------ *)
(** ** Engine lemmas *)

Lemma ia_eqb_eq a b : ia_eqb a b = true <-> a = b.
Proof. destruct a, b; simpl; split; congruence. Qed.

Lemma fold_left_invariant {A B : Type} (P : A -> Prop) (f : A -> B -> A) :
  (forall a b, P a -> P (f a b)) ->
  forall l a, P a -> P (fold_left f l a).
Proof. intros Hf l. induction l as [|b l IH]; simpl; auto. Qed.

Lemma is_unknown_true a : is_unknown a = true <-> a = Unknown.
Proof. apply ia_eqb_eq. Qed.

Lemma lib_step_update_step l a ret o :
  lib_step l a ret o = update_step l a ret o.
Proof. destruct o as [[x y] z]; destruct l, a; reflexivity. Qed.

Lemma lib_pass_update_ret (Store : Type) lookup stores ret identity l a
  action_id details :
  lib_pass Store lookup stores ret identity l a action_id details
  = update_ret_from_authorization_store Store lookup stores ret
      (Some identity) l a action_id details.
Proof.
  unfold lib_pass, update_ret_from_authorization_store.
  revert ret; induction stores as [|s stores IH]; intro ret; simpl; auto.
  rewrite IH. destruct (lookup s (Some identity) action_id details); auto.
  now rewrite lib_step_update_step.
Qed.

Lemma update_step_cases l a ret o :
  update_step l a ret o = ret
  \/ (update_step l a ret o = relevant_ret l a o /\ relevant_ret l a o <> Unknown).
Proof.
  unfold update_step.
  destruct (is_unknown (relevant_ret l a o)) eqn:E; simpl; auto.
  right; split; auto. intro H; apply is_unknown_true in H; congruence.
Qed.

Lemma update_ret_keeps_decided (Store : Type) lookup stores ret0 ret identity
  l a action_id details :
  (ret = ret0 \/ ret <> Unknown) ->
  let r := update_ret_from_authorization_store Store lookup stores ret
             identity l a action_id details in
  r = ret0 \/ r <> Unknown.
Proof.
  intro H; simpl; unfold update_ret_from_authorization_store.
  revert H; apply (fold_left_invariant (fun r => r = ret0 \/ r <> Unknown)).
  intros r s Hr. destruct (lookup s identity action_id details) as [o|]; auto.
  destruct (update_step_cases l a r o) as [E | [E N]]; rewrite E; auto.
Qed.

Lemma update_ret_undecided (Store : Type) lookup stores ret identity l a
  action_id details :
  Forall (undecided lookup l a action_id details identity) stores ->
  update_ret_from_authorization_store Store lookup stores ret (Some identity)
    l a action_id details = ret.
Proof.
  unfold update_ret_from_authorization_store.
  intro H; revert ret; induction H as [|s stores Hs _ IH]; intro ret; simpl;
    auto.
  unfold undecided in Hs.
  destruct (lookup s (Some identity) action_id details) as [o|]; auto.
  unfold update_step; rewrite Hs; simpl. apply IH.
Qed.

(* ------------------------------------------------------------------ *)
(** ** Decision engine claims *)

(** C1 (code_bug): the library [check_authorization_sync] of part_002, the
    entry point that receives [implicit], has no pass with the [NULL]
    identity, so a rule for ["default"] is never consulted. Sally (uid 1000,
    only in her own group) asks, local and active, for the defaults-test
    action with one store holding a default rule whose active outcome is
    [auth_self]: the sibling engine of [pkla-check-authorization.c], which
    runs the defaults pass, answers [auth_self]; the library returns the
    [implicit] [unknown]. *)
Theorem C1_library_skips_defaults_pass :
  rule_store_lookup [defaults_rule] None defaults_action []
    = Some (NotAuthorized, Unknown, AuthenticationRequired)
  /\ get_groups_for_user test_env 1000 = [UnixGroup 1000]
  /\ check_authorization_sync_cli RuleStore rule_store_lookup test_env
       test_stores 1000 true true defaults_action [] = AuthenticationRequired
  /\ check_authorization_sync_lib RuleStore rule_store_lookup test_env
       test_stores 1000 true true defaults_action [] Unknown = Unknown.
Proof. vm_compute. repeat split. Qed.

(** C2: when no lookup of the library engine (groups pass and user pass)
    yields a non-unknown outcome in the selected slot, and in particular
    when there are no stores, [check_authorization_sync] returns [implicit]
    unchanged. *)
Theorem C2_returns_implicit_when_undecided (Store : Type)
  (lookup : Store -> option Identity -> string -> Details -> option Outcomes)
  (env : Env) (stores : list Store) (uid : Z) (l a : bool)
  (action_id : string) (details : Details)
  (implicit : ImplicitAuthorization)
  (Hundecided : Forall (fun identity =>
                          Forall (undecided lookup l a action_id details
                                    identity) stores)
                  (get_groups_for_user env uid ++ [UnixUser uid])) :
  check_authorization_sync_lib Store lookup env stores uid l a action_id
    details implicit = implicit.
Proof.
  unfold check_authorization_sync_lib.
  apply Forall_app in Hundecided as [Hg Hu].
  inversion Hu as [|? ? Huser _]; subst.
  rewrite lib_pass_update_ret, update_ret_undecided by assumption.
  induction Hg as [|g groups Hgr _ IH]; simpl; auto.
  rewrite lib_pass_update_ret, update_ret_undecided by assumption.
  exact IH.
Qed.

Lemma C2_returns_implicit_when_undecided_witness :
  Forall (fun identity =>
            Forall (undecided rule_store_lookup true true defaults_action []
                      identity) test_stores)
    (get_groups_for_user test_env 500 ++ [UnixUser 500])
  /\ check_authorization_sync_lib RuleStore rule_store_lookup test_env
       test_stores 500 true true defaults_action []
       AdministratorAuthenticationRequired
     = AdministratorAuthenticationRequired.
Proof.
  assert (H : Forall (fun identity =>
                        Forall (undecided rule_store_lookup true true
                                  defaults_action [] identity) test_stores)
                (get_groups_for_user test_env 500 ++ [UnixUser 500])).
  { vm_compute. repeat (constructor; vm_compute). }
  split; [exact H | exact (C2_returns_implicit_when_undecided RuleStore
                             rule_store_lookup test_env test_stores 500 true
                             true defaults_action []
                             AdministratorAuthenticationRequired H)].
Defined.

(** C6: a store lookup only ever assigns a non-unknown value to the
    accumulated result (in both engines' per-store steps); a pass over the
    stores leaves an already decided value decided; and the library's
    answer is either [implicit] or not [unknown]. *)
Theorem C6_unknown_never_overwrites (Store : Type)
  (lookup : Store -> option Identity -> string -> Details -> option Outcomes)
  (env : Env) (stores : list Store) (uid : Z) (l a : bool)
  (action_id : string) (details : Details)
  (implicit : ImplicitAuthorization) :
  (forall ret o,
      update_step l a ret o = ret
      \/ (update_step l a ret o = relevant_ret l a o
          /\ relevant_ret l a o <> Unknown))
  /\ (forall ret o,
      lib_step l a ret o = ret
      \/ (lib_step l a ret o = relevant_ret l a o
          /\ relevant_ret l a o <> Unknown))
  /\ (forall ret identity,
      let r := update_ret_from_authorization_store Store lookup stores ret
                 identity l a action_id details in
      r = ret \/ (r <> Unknown))
  /\ (let r := check_authorization_sync_lib Store lookup env stores uid l a
                 action_id details implicit in
      r = implicit \/ r <> Unknown).
Proof.
  split; [|split; [|split]].
  - apply update_step_cases.
  - intros ret o; rewrite lib_step_update_step; apply update_step_cases.
  - intros ret identity; apply update_ret_keeps_decided; auto.
  - simpl. unfold check_authorization_sync_lib.
    rewrite lib_pass_update_ret.
    apply update_ret_keeps_decided.
    apply (fold_left_invariant (fun r => r = implicit \/ r <> Unknown));
      auto.
    intros r g Hr. rewrite lib_pass_update_ret.
    apply update_ret_keeps_decided; exact Hr.
Qed.

(** C7: the outcome a matching lookup contributes is its active outcome
    when the subject is local and active, its inactive outcome when local
    and not active, and its any outcome when not local, whatever the
    activity; an unknown outcome leaves the result as it was. *)
Theorem C7_slot_selection (r_any r_inactive r_active : ImplicitAuthorization) :
  let o := (r_any, r_inactive, r_active) in
  (forall ret,
      update_step true true ret o = (if is_unknown r_active then ret else r_active)
      /\ lib_step true true ret o = (if is_unknown r_active then ret else r_active))
  /\ (forall ret,
      update_step true false ret o
        = (if is_unknown r_inactive then ret else r_inactive)
      /\ lib_step true false ret o
        = (if is_unknown r_inactive then ret else r_inactive))
  /\ (forall active ret,
      update_step false active ret o = (if is_unknown r_any then ret else r_any)
      /\ lib_step false active ret o = (if is_unknown r_any then ret else r_any)).
Proof.
  simpl; unfold update_step, lib_step, relevant_ret; simpl.
  repeat split; intros; try destruct active; simpl;
    repeat match goal with |- context [is_unknown ?x] =>
                             destruct (is_unknown x) end; reflexivity.
Qed.

(** C10: for a uid with no passwd entry, or a user with more groups than
    the 512-entry buffer holds, [get_groups_for_user] logs a warning and
    returns no group; the groups pass then changes nothing: the program's
    engine runs the defaults pass then the user pass, the library engine
    the user pass from [implicit]. *)
Theorem C10_group_lookup_failure (env : Env) (uid : Z)
  (Hfail : env_getpwuid env uid = None
           \/ exists name gid, env_getpwuid env uid = Some (name, gid)
                               /\ 512 < length (env_user_groups env name gid)) :
  fst (get_groups_for_user_logged env uid) <> []
  /\ get_groups_for_user env uid = []
  /\ (forall (Store : Type) lookup (stores : list Store) l a action_id details,
        check_authorization_sync_cli Store lookup env stores uid l a action_id
          details
        = update_ret_from_authorization_store Store lookup stores
            (update_ret_from_authorization_store Store lookup stores Unknown
               None l a action_id details)
            (Some (UnixUser uid)) l a action_id details)
  /\ (forall (Store : Type) lookup (stores : list Store) l a action_id details
             implicit,
        check_authorization_sync_lib Store lookup env stores uid l a action_id
          details implicit
        = lib_pass Store lookup stores implicit (UnixUser uid) l a action_id
            details).
Proof.
  assert (Hl : get_groups_for_user_logged env uid
               = (["No user with uid"], [])
               \/ get_groups_for_user_logged env uid
                  = (["Error looking up groups for uid"], [])).
  { unfold get_groups_for_user_logged.
    destruct Hfail as [E | (name & gid & E & Hlen)]; rewrite E; auto.
    unfold getgrouplist.
    replace (Nat.leb (length (env_user_groups env name gid)) 512) with false;
      auto.
    symmetry; apply Nat.leb_gt; exact Hlen. }
  assert (Hg : get_groups_for_user env uid = []).
  { unfold get_groups_for_user; destruct Hl as [E | E]; rewrite E; reflexivity. }
  split; [destruct Hl as [E | E]; rewrite E; discriminate|].
  split; [exact Hg|].
  split; intros; [unfold check_authorization_sync_cli
                 | unfold check_authorization_sync_lib]; rewrite Hg; reflexivity.
Qed.

Lemma C10_group_lookup_failure_witness :
  512 < length (env_user_groups test_env "many" 2000)
  /\ get_groups_for_user test_env 2000 = [].
Proof.
  assert (H : env_getpwuid test_env 2000 = None
              \/ exists name gid, env_getpwuid test_env 2000 = Some (name, gid)
                                  /\ 512 < length (env_user_groups test_env name gid)).
  { right. exists "many", 2000%Z. split; [reflexivity | vm_compute; lia]. }
  split; [vm_compute; lia|].
  exact (proj1 (proj2 (C10_group_lookup_failure test_env 2000 H))).
Defined.

(* ------------------------------------------------------------------ *)
(** ** Program [pkla-check-authorization] *)

Lemma parse_boolean_spec s b :
  parse_boolean s = Some b <-> (s = "true" /\ b = true) \/ (s = "false" /\ b = false).
Proof.
  unfold parse_boolean.
  destruct (String.eqb_spec s "true") as [->|Ht];
    [|destruct (String.eqb_spec s "false") as [->|Hf]];
    split; intro H; try (inversion H; subst; auto; fail);
    try (destruct H as [[? ?]|[? ?]]; subst; try congruence; reflexivity);
    discriminate.
Qed.

(** C8 (counterexample): with two readable top-levels whose stores give
    no opinion on it, John asks, local and active, for the restricted
    action: the program exits with 0 and prints nothing at all, not an
    empty line. *)
Lemma C8_unknown_prints_nothing :
  let res := pkla_check_authorization_main RuleStore rule_store_lookup
               test_store_new "/var" "/etc" test_env test_fs
               (OptionsParsed (Some test_paths)
                  ["pkla-check-authorization"; "john"; "true"; "true";
                   "com.example.restrictedproduct.foo"]) in
  exit_status res = 0%Z /\ stdout res = "" /\ stdout res <> newline.
Proof. vm_compute. repeat split. discriminate. Qed.

(** C8 (amended): with four arguments, a user name that resolves and
    [local?]/[active?] each the literal ["true"] or ["false"], the program
    exits with 0 and prints the outcome followed by a newline when it is
    decided and nothing when it is unknown; on stderr it writes exactly the
    warnings logged while loading the stores (top-levels that cannot be
    enumerated or whose enumeration fails, then what the store loader
    logs) followed by those of the group lookup (no passwd entry, more
    than 512 groups). An argument count other than four, a failed option
    parse, a boolean other than the two literals, or a user name that does
    not resolve give a message on stderr and exit status 1; [--help]
    prints the help on stdout and exits with 0. *)
Theorem C8_cli_exit_and_output (Store : Type)
  (lookup : Store -> option Identity -> string -> Details -> option Outcomes)
  (store_new : DirEntry -> Store * list string)
  (localstatedir sysconfdir : string) (env : Env) (fs : FileSystem)
  (auth_paths : option string)
  (argv0 user local active action_id : string) (uid : Z) (l a : bool)
  (Huser : env_user_for_name env user = Some uid)
  (Hlocal : parse_boolean local = Some l)
  (Hactive : parse_boolean active = Some a) :
  (let paths := auth_paths_or_default localstatedir sysconfdir auth_paths in
   let res := pkla_check_authorization_main Store lookup store_new
                localstatedir sysconfdir env fs
                (OptionsParsed auth_paths [argv0; user; local; active; action_id]) in
   let r := check_authorization_sync_cli Store lookup env
              (map fst (loaded_stores Store store_new fs paths)) uid l a
              action_id [] in
   exit_status res = 0%Z
   /\ stdout res = (if is_unknown r then ""
                    else polkit_implicit_authorization_to_string r ++ newline)
   /\ stderr res = (load_warnings Store store_new fs paths
                    ++ fst (get_groups_for_user_logged env uid))%list)
  /\ (forall s b, parse_boolean s = Some b
                  <-> (s = "true" /\ b = true) \/ (s = "false" /\ b = false))
  /\ (forall auth_paths' argv, length argv <> 5 ->
        let res := pkla_check_authorization_main Store lookup store_new
                     localstatedir sysconfdir env fs
                     (OptionsParsed auth_paths' argv) in
        exit_status res = 1%Z /\ stdout res = "" /\ stderr res <> [])
  /\ (forall message,
        let res := pkla_check_authorization_main Store lookup store_new
                     localstatedir sysconfdir env fs
                     (OptionParseFailed message) in
        exit_status res = 1%Z /\ stdout res = "" /\ stderr res <> [])
  /\ (forall help,
        let res := pkla_check_authorization_main Store lookup store_new
                     localstatedir sysconfdir env fs (OptionHelp help) in
        exit_status res = 0%Z /\ stdout res = help /\ stderr res = [])
  /\ (forall auth_paths' argv0' user' local' active' action_id',
        parse_boolean local' = None \/ parse_boolean active' = None
        \/ env_user_for_name env user' = None ->
        let res := pkla_check_authorization_main Store lookup store_new
                     localstatedir sysconfdir env fs
                     (OptionsParsed auth_paths'
                        [argv0'; user'; local'; active'; action_id']) in
        exit_status res = 1%Z /\ stdout res = "" /\ stderr res <> []).
Proof.
  split; [|split; [exact parse_boolean_spec|split; [|split; [|split]]]].
  - unfold pkla_check_authorization_main. cbv beta iota zeta.
    rewrite Huser, Hlocal, Hactive. cbv beta iota zeta.
    destruct (is_unknown _); repeat split.
  - intros auth_paths' argv Hlen.
    destruct argv as [|x0 [|x1 [|x2 [|x3 [|x4 [|x5 rest]]]]]];
      simpl in *; try lia; repeat split; discriminate.
  - intros message; simpl; repeat split; discriminate.
  - intros help; simpl; repeat split.
  - intros auth_paths' argv0' user' local' active' action_id' H.
    unfold pkla_check_authorization_main. cbv beta iota zeta.
    destruct (env_user_for_name env user');
      [|repeat split; intro E; apply app_eq_nil in E as [_ E]; discriminate].
    destruct H as [H|[H|H]]; [rewrite H | | discriminate].
    + repeat split; intro E; apply app_eq_nil in E as [_ E]; discriminate.
    + destruct (parse_boolean local'); [rewrite H|];
        repeat split; intro E; apply app_eq_nil in E as [_ E]; discriminate.
Qed.

(** A top-level that cannot be enumerated: the run still succeeds and
    prints the outcome, with a warning on stderr. *)
Lemma C8_cli_exit_and_output_witness :
  let res := pkla_check_authorization_main RuleStore rule_store_lookup
               test_store_new "/var" "/etc" test_env test_fs
               (OptionsParsed (Some "/var/lib/polkit-1/localauthority;/nonexistent")
                  ["pkla-check-authorization"; "john"; "true"; "true";
                   "com.example.awesomeproduct.foo"]) in
  exit_status res = 0%Z
  /\ stdout res = "auth_self" ++ newline
  /\ stderr res = ["Error getting enumerator for /nonexistent"].
Proof.
  destruct (C8_cli_exit_and_output RuleStore rule_store_lookup test_store_new
              "/var" "/etc" test_env test_fs
              (Some "/var/lib/polkit-1/localauthority;/nonexistent")
              "pkla-check-authorization" "john" "true" "true"
              "com.example.awesomeproduct.foo" 500 true true
              eq_refl eq_refl eq_refl)
    as [[H0 [H1 H2]] _].
  cbv zeta. rewrite H0, H1, H2. vm_compute. repeat split.
Defined.

(* ------------------------------------------------------------------ *)
(** ** Store ordering *)

Lemma ascii_compare_refl c : Ascii.compare c c = Eq.
Proof. unfold Ascii.compare. apply N.compare_refl. Qed.

Lemma ascii_compare_le_trans a b c :
  Ascii.compare a b <> Gt -> Ascii.compare b c <> Gt ->
  Ascii.compare a c <> Gt.
Proof. unfold Ascii.compare. rewrite !N.compare_le_iff. lia. Qed.

Lemma ascii_compare_lt_le a b c :
  Ascii.compare a b = Lt -> Ascii.compare b c <> Gt -> Ascii.compare a c = Lt.
Proof.
  unfold Ascii.compare. rewrite N.compare_le_iff, !N.compare_lt_iff. lia.
Qed.

Lemma ascii_compare_le_lt a b c :
  Ascii.compare a b <> Gt -> Ascii.compare b c = Lt -> Ascii.compare a c = Lt.
Proof.
  unfold Ascii.compare. rewrite N.compare_le_iff, !N.compare_lt_iff. lia.
Qed.

(** [g_strcmp0] order is transitive. *)
Lemma string_compare_le_trans s1 s2 s3 :
  String.compare s1 s2 <> Gt -> String.compare s2 s3 <> Gt ->
  String.compare s1 s3 <> Gt.
Proof.
  revert s2 s3; induction s1 as [|c1 s1 IH]; intros s2 s3 H12 H23.
  - destruct s3; simpl; discriminate.
  - destruct s2 as [|c2 s2]; [simpl in H12; congruence|].
    destruct s3 as [|c3 s3]; [simpl in H23; congruence|].
    simpl in *.
    destruct (Ascii.compare c1 c2) eqn:E12; try congruence;
      destruct (Ascii.compare c2 c3) eqn:E23; try congruence.
    + apply Ascii.compare_eq_iff in E12, E23; subst.
      rewrite ascii_compare_refl. eapply IH; eassumption.
    + apply Ascii.compare_eq_iff in E12; subst. rewrite E23. discriminate.
    + apply Ascii.compare_eq_iff in E23; subst. rewrite E12. discriminate.
    + rewrite (ascii_compare_lt_le c1 c2 c3 E12); [discriminate|congruence].
Qed.

Lemma string_compare_app_prefix p s1 s2 :
  String.compare (p ++ s1) (p ++ s2) = String.compare s1 s2.
Proof.
  induction p as [|c p IH]; simpl; auto. rewrite ascii_compare_refl. exact IH.
Qed.

Lemma string_compare_refl s : String.compare s s = Eq.
Proof.
  induction s as [|c s IH]; simpl; auto. rewrite ascii_compare_refl; exact IH.
Qed.

Lemma in_insert_sorted d l x :
  In x (insert_sorted d l) <-> d = x \/ In x l.
Proof.
  induction l as [|y ys IH]; simpl; [tauto|].
  destruct (authorization_store_path_compare_func d y); simpl; try tauto.
Qed.

Lemma in_g_list_sort l x : In x (g_list_sort l) <-> In x l.
Proof.
  unfold g_list_sort. induction l as [|y ys IH]; simpl; [tauto|].
  rewrite in_insert_sorted, IH. intuition.
Qed.

Lemma insert_sorted_sorted d l :
  StronglySorted key_le l -> StronglySorted key_le (insert_sorted d l).
Proof.
  induction l as [|y ys IH]; intro H; simpl.
  - repeat constructor.
  - inversion H as [|? ? Hys Hy]; subst.
    unfold authorization_store_path_compare_func.
    destruct (String.compare (sort_key d) (sort_key y)) eqn:E.
    + constructor; [exact H|]. constructor; [unfold key_le; congruence|].
      eapply Forall_impl; [|exact Hy].
      intros z Hz. unfold key_le in *.
      apply string_compare_le_trans with (sort_key y); congruence.
    + constructor; [exact H|]. constructor; [unfold key_le; congruence|].
      eapply Forall_impl; [|exact Hy].
      intros z Hz. unfold key_le in *.
      apply string_compare_le_trans with (sort_key y); congruence.
    + constructor; [apply IH; exact Hys|].
      apply Forall_forall. intros z Hz. apply in_insert_sorted in Hz.
      destruct Hz as [<-|Hz].
      * unfold key_le. rewrite String.compare_antisym, E. discriminate.
      * rewrite Forall_forall in Hy. apply Hy; exact Hz.
Qed.

Lemma g_list_sort_sorted l : StronglySorted key_le (g_list_sort l).
Proof.
  unfold g_list_sort. induction l as [|y ys IH]; simpl.
  - constructor.
  - apply insert_sorted_sorted; exact IH.
Qed.

Lemma sorted_precedes l x y :
  StronglySorted key_le l -> In x l -> In y l ->
  String.compare (sort_key x) (sort_key y) = Lt ->
  exists l1 l2 l3, l = (l1 ++ x :: l2 ++ y :: l3)%list.
Proof.
  intros H; induction H as [|z l Hl IH Hz]; intros Hx Hy Hlt; [destruct Hx|].
  destruct Hx as [<-|Hx]; destruct Hy as [<-|Hy].
  - rewrite string_compare_refl in Hlt; discriminate.
  - destruct (in_split y l Hy) as (l2 & l3 & ->).
    exists [], l2, l3; reflexivity.
  - rewrite Forall_forall in Hz. specialize (Hz x Hx). unfold key_le in Hz.
    rewrite String.compare_antisym, Hlt in Hz. simpl in Hz. congruence.
  - destruct (IH Hx Hy Hlt) as (l1 & l2 & l3 & ->).
    exists (z :: l1), l2, l3; reflexivity.
Qed.

Lemma add_toplevel_keys n e ds :
  Forall key_of_entry ds -> Forall key_of_entry (add_toplevel n e ds).
Proof.
  destruct e as [|entries err]; simpl; auto.
  revert ds; induction entries as [|[name ty] entries IH]; intros ds H;
    simpl; auto.
  apply IH. destruct ty; auto. constructor; [reflexivity|exact H].
Qed.

Lemma gather_keys n ts ds :
  Forall key_of_entry ds -> Forall key_of_entry (gather_directories n ts ds).
Proof.
  revert n ds; induction ts as [|t ts IH]; intros n ds H; simpl; auto.
  apply IH, add_toplevel_keys, H.
Qed.

Lemma single_digit_keys_ordered m n :
  m < n -> n < 10 ->
  String.compare ("-" ++ decimal m) ("-" ++ decimal n) = Lt.
Proof.
  intros Hmn Hn.
  destruct n as [|[|[|[|[|[|[|[|[|[|n]]]]]]]]]]; try lia;
    destruct m as [|[|[|[|[|[|[|[|[|m]]]]]]]]]; try lia; reflexivity.
Qed.

(** C5 (amended): the stores come in ascending byte-wise order of the
    sort key, and the sort key of the subdirectory [d] of top-level [n] is
    ["d-n"] with [n] in unpadded decimal; every subdirectory found gets a
    store. Hence same-named subdirectories of top-levels [m < n] come in
    index order when the indices have one digit ([n < 10]). *)
Theorem C5_store_order (toplevels : list Enumeration) :
  let ds := add_all_authorization_stores toplevels in
  StronglySorted key_le ds
  /\ (forall x, In x ds <-> In x (gather_directories 0 toplevels []))
  /\ (forall x, In x ds -> sort_key x = dir_name x ++ "-" ++ decimal (dir_toplevel x))
  /\ (forall x y, In x ds -> In y ds -> dir_name x = dir_name y ->
        dir_toplevel x < dir_toplevel y -> dir_toplevel y < 10 ->
        exists l1 l2 l3, ds = (l1 ++ x :: l2 ++ y :: l3)%list).
Proof.
  simpl. unfold add_all_authorization_stores.
  assert (Hk : forall x, In x (g_list_sort (gather_directories 0 toplevels []))
                         -> key_of_entry x).
  { intros x Hx. rewrite in_g_list_sort in Hx.
    pose proof (gather_keys 0 toplevels [] (Forall_nil _)) as H.
    rewrite Forall_forall in H. exact (H x Hx). }
  split; [apply g_list_sort_sorted|].
  split; [intro x; apply in_g_list_sort|].
  split; [exact Hk|].
  intros x y Hx Hy Hname Hlt H10.
  apply sorted_precedes; auto using g_list_sort_sorted.
  rewrite (Hk x Hx), (Hk y Hy), Hname.
  rewrite string_compare_app_prefix.
  apply single_digit_keys_ordered; assumption.
Qed.

(** C5 (counterexample): with eleven top-level paths that each hold a
    subdirectory [d], the key ["d-10"] sorts before ["d-2"]: the store of
    top-level 10 comes before those of top-levels 2 to 9. *)
Lemma C5_index_10_before_2 :
  map dir_toplevel (add_all_authorization_stores eleven_toplevels)
  = [0; 1; 10; 2; 3; 4; 5; 6; 7; 8; 9]
  /\ map sort_key (add_all_authorization_stores eleven_toplevels)
     = ["d-0"; "d-1"; "d-10"; "d-2"; "d-3"; "d-4"; "d-5"; "d-6"; "d-7";
        "d-8"; "d-9"].
Proof. vm_compute. split; reflexivity. Qed.

Lemma C5_store_order_witness :
  exists l1 l2 l3,
    add_all_authorization_stores eleven_toplevels
    = (l1 ++ {| dir_toplevel := 2; dir_name := "d"; sort_key := "d-2" |}
          :: l2 ++ {| dir_toplevel := 3; dir_name := "d"; sort_key := "d-3" |}
          :: l3)%list.
Proof.
  apply (proj2 (proj2 (proj2 (C5_store_order eleven_toplevels))));
    [vm_compute; tauto | vm_compute; tauto | reflexivity
    | simpl; lia | simpl; lia].
Defined.

(* ------------------------------------------------------------------ *)
(** ** Admin resolver *)

Lemma fold_left_ext {A B : Type} (f g : A -> B -> A) l a :
  (forall x y, f x y = g x y) -> fold_left f l a = fold_left g l a.
Proof.
  intro H; revert a; induction l as [|y l IH]; intro a; simpl; auto.
  rewrite H; apply IH.
Qed.

Lemma rev_fold_prepend {A B : Type} (f : A -> option B) l acc :
  rev (fold_left (fun ret x => match f x with
                               | None => ret
                               | Some y => y :: ret
                               end) l acc)
  = (rev acc ++ flat_map (fun x => match f x with
                                   | None => []
                                   | Some y => [y]
                                   end) l)%list.
Proof.
  revert acc; induction l as [|x l IH]; intro acc; simpl.
  - rewrite app_nil_r; reflexivity.
  - rewrite IH. destruct (f x); simpl; auto.
    rewrite <- app_assoc; reflexivity.
Qed.

Lemma get_users_in_group_members env gid include_root :
  get_users_in_group env gid include_root
  = match env_getgrgid env gid with
    | None => []
    | Some gr_mem => flat_map (fun m => opt_list (member_user env include_root m))
                       gr_mem
    end.
Proof.
  unfold get_users_in_group. destruct (env_getgrgid env gid) as [mem|]; auto.
  rewrite (fold_left_ext _ (fun ret m => match member_user env include_root m with
                                         | None => ret
                                         | Some y => y :: ret
                                         end)).
  - rewrite rev_fold_prepend; reflexivity.
  - intros ret m. unfold member_user.
    destruct (negb include_root && (m =? "root")); auto.
    destruct (env_user_for_name env m); reflexivity.
Qed.

Lemma get_users_in_net_group_triples env name include_root :
  get_users_in_net_group env name include_root
  = match env_netgrent env name with
    | None => []
    | Some triples => flat_map (fun t => opt_list (triple_user env t)) triples
    end.
Proof.
  unfold get_users_in_net_group. destruct (env_netgrent env name) as [ts|]; auto.
  rewrite (fold_left_ext _ (fun ret t => match triple_user env t with
                                         | None => ret
                                         | Some y => y :: ret
                                         end)).
  - rewrite rev_fold_prepend; reflexivity.
  - intros ret [[h u] d]. unfold triple_user.
    destruct u as [u|]; auto. destruct (u =? "-"); auto.
    destruct (env_user_for_name env u); reflexivity.
Qed.

Lemma flat_map_opt_users {A : Type} (f : A -> option Identity) l :
  (forall x i, f x = Some i -> is_unix_user i = true) ->
  Forall (fun i => is_unix_user i = true) (flat_map (fun x => opt_list (f x)) l).
Proof.
  intro H. apply Forall_forall. intros i Hi.
  apply in_flat_map in Hi as (x & _ & Hx).
  destruct (f x) eqn:E; simpl in Hx; [|contradiction].
  destruct Hx as [<-|[]]. eapply H; eauto.
Qed.

Lemma member_user_is_user env inc m i :
  member_user env inc m = Some i -> is_unix_user i = true.
Proof.
  unfold member_user. destruct (negb inc && (m =? "root")); [discriminate|].
  destruct (env_user_for_name env m); simpl; intro H; inversion H; reflexivity.
Qed.

Lemma triple_user_is_user env t i :
  triple_user env t = Some i -> is_unix_user i = true.
Proof.
  destruct t as [[h [u|]] d]; simpl; [|discriminate].
  destruct (u =? "-"); [discriminate|].
  destruct (env_user_for_name env u); simpl; intro H; inversion H; reflexivity.
Qed.

Lemma admin_step_app env ret s :
  admin_step env ret s = (ret ++ admin_step env [] s)%list.
Proof.
  unfold admin_step. destruct (env_identity_from_string env s) as [[]|];
    simpl; auto using app_nil_r.
Qed.

Lemma admin_loop_app env ret l :
  admin_loop env ret l = (ret ++ admin_loop env [] l)%list.
Proof.
  unfold admin_loop. revert ret; induction l as [|s l IH]; intro ret; simpl.
  - rewrite app_nil_r; reflexivity.
  - rewrite IH, (IH (admin_step env [] s)), admin_step_app, app_assoc.
    reflexivity.
Qed.

Lemma admin_loop_entries_app env l1 l2 :
  admin_loop env [] (l1 ++ l2) = (admin_loop env [] l1 ++ admin_loop env [] l2)%list.
Proof.
  unfold admin_loop at 1. rewrite fold_left_app.
  fold (admin_loop env (admin_loop env [] l1) l2). apply admin_loop_app.
Qed.

(** C3: an [AdminIdentities] entry that parses as [unix-group:gid], at any
    position of the list, adds at that place the users the group's members
    map to, in member order, skipping the member named ["root"] (and names
    that do not resolve); it adds no group identity. A
    [unix-netgroup:name] entry, at any position, likewise adds users only.
    When the collected list is not empty it is the answer. *)
Theorem C3_group_entries_expand_to_users (env : Env) (pre : list string)
  (s : string) (gid : Z) (rest : list string)
  (Hs : env_identity_from_string env s = Some (UnixGroup gid)) :
  admin_loop env [] (pre ++ s :: rest)
    = (admin_loop env [] pre ++ get_users_in_group env gid false
       ++ admin_loop env [] rest)%list
  /\ get_users_in_group env gid false
     = match env_getgrgid env gid with
       | None => []
       | Some gr_mem =>
           flat_map (fun m => if m =? "root" then []
                              else match env_user_for_name env m with
                                   | None => []
                                   | Some uid => [UnixUser uid]
                                   end) gr_mem
       end
  /\ Forall (fun i => is_unix_user i = true) (get_users_in_group env gid false)
  /\ (forall s' name,
        env_identity_from_string env s' = Some (UnixNetgroup name) ->
        admin_loop env [] (pre ++ s' :: rest)
          = (admin_loop env [] pre ++ get_users_in_net_group env name false
             ++ admin_loop env [] rest)%list
        /\ Forall (fun i => is_unix_user i = true)
             (get_users_in_net_group env name false))
  /\ (forall entries, env_admin_identities env = inl entries ->
        admin_loop env [] entries <> [] ->
        get_admin_auth_identities env = admin_loop env [] entries).
Proof.
  split; [|split; [|split; [|split]]].
  - rewrite admin_loop_entries_app. f_equal.
    unfold admin_loop at 1; simpl. unfold admin_step at 2; rewrite Hs; simpl.
    fold (admin_loop env (get_users_in_group env gid false) rest).
    apply admin_loop_app.
  - rewrite get_users_in_group_members.
    destruct (env_getgrgid env gid) as [mem|]; auto.
    apply flat_map_ext. intro m. unfold member_user; simpl.
    destruct (m =? "root"); auto.
    destruct (env_user_for_name env m); reflexivity.
  - rewrite get_users_in_group_members.
    destruct (env_getgrgid env gid); auto.
    apply flat_map_opt_users, member_user_is_user.
  - intros s' name Hs'. split.
    + rewrite admin_loop_entries_app. f_equal.
      unfold admin_loop at 1; simpl. unfold admin_step at 2; rewrite Hs'; simpl.
      fold (admin_loop env (get_users_in_net_group env name false) rest).
      apply admin_loop_app.
    + rewrite get_users_in_net_group_triples.
      destruct (env_netgrent env name); auto.
      apply flat_map_opt_users, triple_user_is_user.
  - intros entries He Hne. unfold get_admin_auth_identities. rewrite He.
    destruct (admin_loop env [] entries); congruence.
Qed.

Lemma C3_group_entries_expand_to_users_witness :
  get_users_in_group test_env 10 false = [UnixUser 500]
  /\ admin_loop test_env [] ["unix-user:root"; "unix-netgroup:bar";
                              "unix-group:admin"]
     = [UnixUser 0; UnixUser 0; UnixUser 500; UnixUser 500].
Proof.
  destruct (C3_group_entries_expand_to_users test_env
              ["unix-user:root"; "unix-netgroup:bar"] "unix-group:admin" 10 []
              eq_refl) as [H1 [H2 _]].
  change ["unix-user:root"; "unix-netgroup:bar"; "unix-group:admin"]
    with (["unix-user:root"; "unix-netgroup:bar"] ++ "unix-group:admin" :: [])%list.
  rewrite H1, H2. vm_compute. split; reflexivity.
Defined.

(** C4: when [AdminIdentities] cannot be read (absent or another error),
    or every entry is skipped or expands to nothing, the admin identities
    are exactly [[unix-user:0]]. *)
Theorem C4_root_fallback (env : Env)
  (Hnone : (exists err, env_admin_identities env = inr err)
           \/ (exists entries, env_admin_identities env = inl entries
                               /\ Forall (fun s => admin_step env [] s = [])
                                    entries)) :
  get_admin_auth_identities env = [UnixUser 0].
Proof.
  unfold get_admin_auth_identities.
  destruct Hnone as [[err E] | (entries & E & Hall)]; rewrite E; auto.
  replace (admin_loop env [] entries) with (@nil Identity); auto.
  clear E. induction Hall as [|s entries Hs _ IH]; auto.
  unfold admin_loop; simpl. rewrite Hs. exact IH.
Qed.

Lemma C4_root_fallback_witness :
  get_admin_auth_identities (with_admin_identities test_env (inr KeyNotFound))
    = [UnixUser 0]
  /\ get_admin_auth_identities
       (with_admin_identities test_env (inl ["unix-group:nobody"; "bogus"]))
    = [UnixUser 0].
Proof.
  split; apply C4_root_fallback.
  - left; exists KeyNotFound; reflexivity.
  - right; eexists; split; [reflexivity|].
    repeat constructor.
Defined.

(** C9: [get_users_in_net_group] does not read [include_root]: a netgroup
    triple naming the user ["root"] yields [unix-user:root] even when
    [include_root] is false, whereas every user [get_users_in_group] returns
    with [include_root] false comes from a member not named ["root"]. *)
Theorem C9_netgroup_keeps_root (env : Env) (name : string)
  (triples : list (option string * option string * option string))
  (host domain : option string) (uid : Z)
  (Hng : env_netgrent env name = Some triples)
  (Hin : In (host, Some "root", domain) triples)
  (Hroot : env_user_for_name env "root" = Some uid) :
  In (UnixUser uid) (get_users_in_net_group env name false)
  /\ (forall include_root, get_users_in_net_group env name include_root
                           = get_users_in_net_group env name false)
  /\ (forall gid gr_mem u, env_getgrgid env gid = Some gr_mem ->
        In (UnixUser u) (get_users_in_group env gid false) ->
        exists m, In m gr_mem /\ m <> "root"
                  /\ env_user_for_name env m = Some u).
Proof.
  split; [|split].
  - rewrite get_users_in_net_group_triples, Hng.
    apply in_flat_map. exists (host, Some "root", domain). split; auto.
    simpl. rewrite Hroot. left; reflexivity.
  - intro include_root. reflexivity.
  - intros gid gr_mem u Hg Hu.
    rewrite get_users_in_group_members, Hg in Hu.
    apply in_flat_map in Hu as (m & Hm & Hu).
    unfold member_user in Hu; simpl in Hu.
    destruct (String.eqb_spec m "root") as [_|Hne]; simpl in Hu; [contradiction|].
    destruct (env_user_for_name env m) eqn:E; simpl in Hu; [|contradiction].
    destruct Hu as [Hu|[]]. inversion Hu; subst.
    exists m; auto.
Qed.

Lemma C9_netgroup_keeps_root_witness :
  In (UnixUser 0) (get_users_in_net_group test_env "bar" false)
  /\ get_users_in_group test_env 0 false = [].
Proof.
  split; [|vm_compute; reflexivity].
  exact (proj1 (C9_netgroup_keeps_root test_env "bar"
                  [(None, Some "root", None); (Some "h", Some "-", None);
                   (None, None, None); (None, Some "john", None)]
                  None None 0 eq_refl (or_introl eq_refl) eq_refl)).
Defined.

(* ------------------------------------------------------------------ *)
(** ** Decision engines: composition of passes *)

Lemma update_step_unknown_iff l a ret o :
  update_step l a ret o = Unknown
  <-> ret = Unknown /\ relevant_ret l a o = Unknown.
Proof.
  unfold update_step.
  destruct (is_unknown (relevant_ret l a o)) eqn:E; simpl.
  - apply is_unknown_true in E. tauto.
  - split; [intro H; rewrite H in E; discriminate|].
    intros [_ H]; rewrite H in E; discriminate.
Qed.

Lemma update_ret_unknown_iff (Store : Type) lookup stores ret identity l a
  action_id details :
  update_ret_from_authorization_store Store lookup stores ret identity l a
    action_id details = Unknown
  <-> ret = Unknown
      /\ Forall (undecided_at lookup l a action_id details identity) stores.
Proof.
  unfold update_ret_from_authorization_store.
  revert ret; induction stores as [|s stores IH]; intro ret; simpl.
  - split; [intro H; split; auto|tauto].
  - rewrite IH, Forall_cons_iff.
    change (undecided_at lookup l a action_id details identity s) with
      (match lookup s identity action_id details with
       | Some o => relevant_ret l a o = Unknown
       | None => True
       end).
    destruct (lookup s identity action_id details) as [o|].
    + rewrite update_step_unknown_iff. tauto.
    + tauto.
Qed.

Lemma update_ret_undecided_at (Store : Type) lookup stores ret identity l a
  action_id details :
  Forall (undecided_at lookup l a action_id details identity) stores ->
  update_ret_from_authorization_store Store lookup stores ret identity
    l a action_id details = ret.
Proof.
  unfold update_ret_from_authorization_store.
  intro H; revert ret; induction H as [|s stores Hs _ IH]; intro ret; simpl;
    auto.
  unfold undecided_at in Hs.
  destruct (lookup s identity action_id details) as [o|]; auto.
  unfold update_step; rewrite Hs; simpl. apply IH.
Qed.

Lemma update_ret_last_decided (Store : Type) lookup (l1 l2 : list Store)
  (s : Store) ret identity l a action_id details o :
  lookup s identity action_id details = Some o ->
  relevant_ret l a o <> Unknown ->
  Forall (undecided_at lookup l a action_id details identity) l2 ->
  update_ret_from_authorization_store Store lookup (l1 ++ s :: l2)%list ret
    identity l a action_id details = relevant_ret l a o.
Proof.
  intros Hs Hdec Hrest.
  unfold update_ret_from_authorization_store.
  rewrite fold_left_app; simpl. rewrite Hs.
  unfold update_step.
  destruct (is_unknown (relevant_ret l a o)) eqn:E;
    [apply is_unknown_true in E; contradiction|]; simpl.
  apply (update_ret_undecided_at Store lookup l2 _ identity l a action_id
           details Hrest).
Qed.

Lemma groups_pass_unknown_iff (Store : Type) lookup stores groups ret l a
  action_id details :
  fold_left (fun ret group =>
               update_ret_from_authorization_store Store lookup stores ret
                 (Some group) l a action_id details) groups ret = Unknown
  <-> ret = Unknown
      /\ Forall (fun group =>
                   Forall (undecided_at lookup l a action_id details
                             (Some group)) stores) groups.
Proof.
  revert ret; induction groups as [|g groups IH]; intro ret; simpl.
  - split; [intro H; split; auto|tauto].
  - rewrite IH, Forall_cons_iff, update_ret_unknown_iff. tauto.
Qed.

(** X1: in one pass over the stores, the result is the selected outcome of
    the last store whose lookup yields a non-unknown one: stores after it
    that have no opinion change nothing, and whatever came before it is
    overridden. *)
Theorem X1_last_decided_store_wins (Store : Type)
  (lookup : Store -> option Identity -> string -> Details -> option Outcomes)
  (l1 l2 : list Store) (s : Store) (ret : ImplicitAuthorization)
  (identity : option Identity) (l a : bool) (action_id : string)
  (details : Details) (o : Outcomes)
  (Hs : lookup s identity action_id details = Some o)
  (Hdecided : relevant_ret l a o <> Unknown)
  (Hrest : Forall (undecided_at lookup l a action_id details identity) l2) :
  update_ret_from_authorization_store Store lookup (l1 ++ s :: l2)%list ret
    identity l a action_id details = relevant_ret l a o.
Proof. exact (update_ret_last_decided Store lookup l1 l2 s ret identity l a
                action_id details o Hs Hdecided Hrest). Qed.

Lemma X1_last_decided_store_wins_witness :
  rule_store_lookup [defaults_rule] None defaults_action []
    = Some (NotAuthorized, Unknown, AuthenticationRequired)
  /\ AuthenticationRequired <> Unknown
  /\ Forall (undecided_at rule_store_lookup true true defaults_action [] None)
       [[admin_group_rule]]
  /\ update_ret_from_authorization_store RuleStore rule_store_lookup
       ([] ++ [defaults_rule] :: [[admin_group_rule]])%list Authorized None
       true true defaults_action [] = AuthenticationRequired.
Proof.
  assert (Hs : rule_store_lookup [defaults_rule] None defaults_action []
               = Some (NotAuthorized, Unknown, AuthenticationRequired))
    by reflexivity.
  assert (Hd : AuthenticationRequired <> Unknown) by discriminate.
  assert (Hr : Forall (undecided_at rule_store_lookup true true
                         defaults_action [] None) [[admin_group_rule]])
    by (repeat constructor).
  split; [exact Hs|split; [exact Hd|split; [exact Hr|]]].
  exact (X1_last_decided_store_wins RuleStore rule_store_lookup []
           [[admin_group_rule]] [defaults_rule] Authorized None true true
           defaults_action [] _ Hs Hd Hr).
Defined.

(** X2: a store whose lookup for the user's own identity is decided, with
    no later store deciding for the user, fixes the answer of both engines:
    the user pass runs last, so it overrides the defaults and group passes
    (and the library's [implicit]). *)
Theorem X2_user_decision_overrides (Store : Type)
  (lookup : Store -> option Identity -> string -> Details -> option Outcomes)
  (env : Env) (stores l1 l2 : list Store) (s : Store) (uid : Z) (l a : bool)
  (action_id : string) (details : Details) (implicit : ImplicitAuthorization)
  (o : Outcomes)
  (Hstores : stores = (l1 ++ s :: l2)%list)
  (Hs : lookup s (Some (UnixUser uid)) action_id details = Some o)
  (Hdecided : relevant_ret l a o <> Unknown)
  (Hrest : Forall (undecided_at lookup l a action_id details
                     (Some (UnixUser uid))) l2) :
  check_authorization_sync_cli Store lookup env stores uid l a action_id details
    = relevant_ret l a o
  /\ check_authorization_sync_lib Store lookup env stores uid l a action_id
       details implicit = relevant_ret l a o.
Proof.
  subst stores. split.
  - unfold check_authorization_sync_cli.
    apply update_ret_last_decided; assumption.
  - unfold check_authorization_sync_lib. rewrite lib_pass_update_ret.
    apply update_ret_last_decided; assumption.
Qed.

Lemma X2_user_decision_overrides_witness :
  check_authorization_sync_cli RuleStore rule_store_lookup test_env
    [[defaults_rule]; [john_rule]; [admin_group_rule]] 500 true true
    defaults_action [] = Authorized
  /\ check_authorization_sync_lib RuleStore rule_store_lookup test_env
    [[defaults_rule]; [john_rule]; [admin_group_rule]] 500 true true
    defaults_action [] NotAuthorized = Authorized.
Proof.
  exact (X2_user_decision_overrides RuleStore rule_store_lookup test_env
           [[defaults_rule]; [john_rule]; [admin_group_rule]]
           [[defaults_rule]] [[admin_group_rule]] [john_rule] 500 true true
           defaults_action [] NotAuthorized
           (NotAuthorized, NotAuthorized, Authorized)
           eq_refl eq_refl ltac:(discriminate) ltac:(repeat constructor)).
Defined.

(** X3: the program's engine answers [unknown] (so [main] prints nothing)
    exactly when no lookup of any pass (the [NULL] identity, each group of
    the user, then the user) yields a non-unknown selected outcome. *)
Theorem X3_cli_unknown_iff_no_opinion (Store : Type)
  (lookup : Store -> option Identity -> string -> Details -> option Outcomes)
  (env : Env) (stores : list Store) (uid : Z) (l a : bool)
  (action_id : string) (details : Details) :
  check_authorization_sync_cli Store lookup env stores uid l a action_id details
    = Unknown
  <-> Forall (fun identity =>
                Forall (undecided_at lookup l a action_id details identity)
                  stores)
        (None :: map Some (get_groups_for_user env uid)
              ++ [Some (UnixUser uid)])%list.
Proof.
  unfold check_authorization_sync_cli.
  rewrite update_ret_unknown_iff, groups_pass_unknown_iff,
    update_ret_unknown_iff.
  rewrite Forall_cons_iff, Forall_app, Forall_map.
  split.
  - intros [[[_ Hd] Hg] Hu]. repeat split; auto.
  - intros [Hd [Hg Hu]]. inversion Hu; subst. tauto.
Qed.

(** X4: the program's engine is the library's engine started from the
    result of the defaults pass (the [NULL] identity pass from [unknown])
    in place of [implicit]. *)
Theorem X4_cli_is_lib_after_defaults (Store : Type)
  (lookup : Store -> option Identity -> string -> Details -> option Outcomes)
  (env : Env) (stores : list Store) (uid : Z) (l a : bool)
  (action_id : string) (details : Details) :
  check_authorization_sync_cli Store lookup env stores uid l a action_id details
  = check_authorization_sync_lib Store lookup env stores uid l a action_id
      details
      (update_ret_from_authorization_store Store lookup stores Unknown None
         l a action_id details).
Proof.
  unfold check_authorization_sync_cli, check_authorization_sync_lib.
  rewrite lib_pass_update_ret. f_equal.
  apply fold_left_ext. intros ret g. symmetry. apply lib_pass_update_ret.
Qed.

(* ------------------------------------------------------------------ *)
(** ** Groups of a user *)

Lemma fold_prepend_rev {A B : Type} (f : A -> B) l acc :
  fold_left (fun result x => f x :: result) l acc = (rev (map f l) ++ acc)%list.
Proof.
  revert acc; induction l as [|x l IH]; intro acc; simpl; auto.
  rewrite IH, <- app_assoc; reflexivity.
Qed.

(** X5: when the user exists and has at most 512 groups,
    [get_groups_for_user] logs nothing and returns every group [getgrouplist]
    reports, as [unix-group] identities, in the reverse of the order the
    OS gives them. *)
Theorem X5_groups_for_user_reversed (env : Env) (uid : Z) (name : string)
  (gid : Z)
  (Hpw : env_getpwuid env uid = Some (name, gid))
  (Hfit : length (env_user_groups env name gid) <= 512) :
  get_groups_for_user_logged env uid
  = ([], rev (map UnixGroup (env_user_groups env name gid))).
Proof.
  unfold get_groups_for_user_logged, getgrouplist. rewrite Hpw.
  apply Nat.leb_le in Hfit. rewrite Hfit.
  rewrite fold_prepend_rev, app_nil_r. reflexivity.
Qed.

Lemma X5_groups_for_user_reversed_witness :
  get_groups_for_user_logged test_env 500 = ([], [UnixGroup 10; UnixGroup 500]).
Proof.
  exact (X5_groups_for_user_reversed test_env 500 "john" 500 eq_refl
           ltac:(simpl; lia)).
Defined.

(* ------------------------------------------------------------------ *)
(** ** Store ordering: sort keys and enumeration order *)

Lemma decimal_aux_value f n acc :
  n < f ->
  decimal_value_aux 0 (decimal_aux f n acc) = decimal_value_aux n acc.
Proof.
  revert n acc; induction f as [|f IH]; intros n acc Hn; [lia|].
  cbn [decimal_aux].
  assert (Hd : nat_of_ascii (ascii_of_nat (48 + n mod 10)) - 48
               = n mod 10).
  { rewrite Ascii.nat_ascii_embedding; [lia|].
    pose proof (Nat.mod_upper_bound n 10); lia. }
  set (c := ascii_of_nat (48 + n mod 10)) in *.
  destruct (Nat.ltb n 10) eqn:E.
  - apply Nat.ltb_lt in E. cbn [decimal_value_aux].
    rewrite Hd, Nat.mod_small by lia. reflexivity.
  - apply Nat.ltb_ge in E. rewrite IH by (apply Nat.Div0.div_lt_upper_bound; lia).
    cbn [decimal_value_aux]. rewrite Hd. f_equal.
    pose proof (Nat.div_mod_eq n 10). lia.
Qed.

Lemma decimal_value n : decimal_value_aux 0 (decimal n) = n.
Proof. unfold decimal. rewrite decimal_aux_value by lia. reflexivity. Qed.

Lemma decimal_inj m n : decimal m = decimal n -> m = n.
Proof.
  intro H. rewrite <- (decimal_value m), <- (decimal_value n), H. reflexivity.
Qed.

Lemma decimal_aux_excludes_dash f n acc :
  excludes_char "-" acc = true -> excludes_char "-" (decimal_aux f n acc) = true.
Proof.
  revert n acc; induction f as [|f IH]; intros n acc H; cbn [decimal_aux];
    auto.
  assert (Hc : excludes_char "-" (String (ascii_of_nat (48 + n mod 10)) acc)
               = true).
  { cbn [excludes_char]. rewrite H, andb_true_r.
    destruct (Ascii.eqb_spec (ascii_of_nat (48 + n mod 10)) "-") as [E|E];
      [|reflexivity].
    apply (f_equal nat_of_ascii) in E.
    rewrite Ascii.nat_ascii_embedding in E;
      [discriminate|pose proof (Nat.mod_upper_bound n 10); lia]. }
  destruct (Nat.ltb n 10); auto.
Qed.

Lemma excludes_char_app_false c s t :
  excludes_char c (s ++ String c t) = false.
Proof.
  induction s as [|d s IH]; simpl.
  - rewrite Ascii.eqb_refl. reflexivity.
  - rewrite IH, andb_false_r. reflexivity.
Qed.

Lemma dash_suffix_inj n1 n2 d1 d2 :
  excludes_char "-" d1 = true -> excludes_char "-" d2 = true ->
  n1 ++ "-" ++ d1 = n2 ++ "-" ++ d2 -> n1 = n2 /\ d1 = d2.
Proof.
  revert n2; induction n1 as [|c n1 IH]; intros n2 H1 H2 E;
    destruct n2 as [|c2 n2]; simpl in E.
  - inversion E; auto.
  - inversion E; subst. rewrite excludes_char_app_false in H1; discriminate.
  - inversion E; subst. rewrite excludes_char_app_false in H2; discriminate.
  - inversion E; subst. destruct (IH n2 H1 H2 H3); subst; auto.
Qed.

Lemma key_determines_entry x y :
  key_of_entry x -> key_of_entry y -> sort_key x = sort_key y -> x = y.
Proof.
  unfold key_of_entry. intros Hx Hy E.
  rewrite Hx, Hy in E.
  apply dash_suffix_inj in E as [En Ed];
    try apply decimal_aux_excludes_dash; try reflexivity.
  apply decimal_inj in Ed.
  destruct x as [tx nx kx], y as [ty ny ky]; simpl in *; subst; reflexivity.
Qed.

Lemma insert_sorted_perm d l : Permutation (insert_sorted d l) (d :: l).
Proof.
  induction l as [|y ys IH]; simpl; auto.
  destruct (authorization_store_path_compare_func d y); auto.
  eapply perm_trans; [apply perm_skip, IH|apply perm_swap].
Qed.

Lemma g_list_sort_perm l : Permutation (g_list_sort l) l.
Proof.
  unfold g_list_sort. induction l as [|y ys IH]; simpl; auto.
  eapply perm_trans; [apply insert_sorted_perm|apply perm_skip, IH].
Qed.

Lemma key_le_antisym x y : key_le x y -> key_le y x -> sort_key x = sort_key y.
Proof.
  unfold key_le. intros H1 H2.
  rewrite String.compare_antisym in H2.
  apply String.compare_eq_iff.
  destruct (String.compare (sort_key x) (sort_key y)); simpl in *; congruence.
Qed.

Lemma sorted_unique x y :
  StronglySorted key_le x -> StronglySorted key_le y -> Permutation x y ->
  (forall a b, In a x -> In b x -> sort_key a = sort_key b -> a = b) ->
  x = y.
Proof.
  revert y; induction x as [|a x IH]; intros y Hx Hy Hp Hk.
  - symmetry; apply Permutation_nil; exact Hp.
  - destruct y as [|b y].
    + apply Permutation_sym, Permutation_nil in Hp; discriminate.
    + apply StronglySorted_inv in Hx as [Hx Hxa].
      apply StronglySorted_inv in Hy as [Hy Hyb].
      destruct (Hk a b) as [];
        [left; reflexivity| |
         |f_equal; apply IH; auto;
          [apply Permutation_cons_inv with a; exact Hp
          |intros u v Hu Hv; apply Hk; right; assumption]].
      * apply (Permutation_in b (Permutation_sym Hp)). left; reflexivity.
      * assert (Hb : In b (a :: x))
          by (apply (Permutation_in b (Permutation_sym Hp)); left; reflexivity).
        assert (Ha : In a (b :: y))
          by (apply (Permutation_in a Hp); left; reflexivity).
        destruct Hb as [Hb|Hb]; [subst; reflexivity|].
        destruct Ha as [Ha|Ha]; [subst; reflexivity|].
        rewrite Forall_forall in Hxa, Hyb.
        apply key_le_antisym; [apply Hxa|apply Hyb]; assumption.
Qed.

(** The store a directory entry of top-level [n] becomes. *)
Lemma add_toplevel_app n e ds :
  add_toplevel n e ds = (add_toplevel n e [] ++ ds)%list.
Proof.
  destruct e as [|entries err]; simpl; auto.
  revert ds; induction entries as [|[name ty] entries IH]; intro ds; simpl;
    auto.
  rewrite IH. symmetry. rewrite IH. rewrite <- app_assoc.
  destruct ty; reflexivity.
Qed.

Lemma gather_directories_app n ts ds :
  gather_directories n ts ds = (gather_directories n ts [] ++ ds)%list.
Proof.
  revert n ds; induction ts as [|t ts IH]; intros n ds; simpl; auto.
  rewrite IH, (IH (S n) (add_toplevel n t [])), add_toplevel_app, app_assoc.
  reflexivity.
Qed.

Lemma add_toplevel_entries n entries err :
  add_toplevel n (Enumerated entries err) []
  = rev (flat_map (fun '(name, ty) =>
                     match ty with
                     | Directory => [{| dir_toplevel := n; dir_name := name;
                                        sort_key := name ++ "-" ++ decimal n |}]
                     | _ => []
                     end) entries).
Proof.
  simpl.
  rewrite (fold_left_ext _
             (fun ret (e : string * FileType) =>
                match (let '(name, ty) := e in
                       match ty with
                       | Directory => Some {| dir_toplevel := n; dir_name := name;
                                              sort_key := name ++ "-" ++ decimal n |}
                       | _ => None
                       end) with
                | None => ret
                | Some y => y :: ret
                end)).
  - rewrite <- (rev_involutive (fold_left _ entries [])).
    rewrite rev_fold_prepend. simpl. f_equal.
    apply flat_map_ext. intros [name ty]. destruct ty; reflexivity.
  - intros ret [name ty]. destruct ty; reflexivity.
Qed.

Lemma perm_flat_map {A B : Type} (f : A -> list B) l1 l2 :
  Permutation l1 l2 -> Permutation (flat_map f l1) (flat_map f l2).
Proof.
  induction 1; simpl; auto.
  - apply Permutation_app_head; assumption.
  - rewrite !app_assoc. apply Permutation_app_tail, Permutation_app_comm.
  - eapply perm_trans; eassumption.
Qed.

Lemma gather_directories_perm ts1 ts2 n :
  Forall2 same_entries ts1 ts2 ->
  Permutation (gather_directories n ts1 []) (gather_directories n ts2 []).
Proof.
  intro H; revert n; induction H as [|t1 t2 ts1 ts2 Ht _ IH]; intro n;
    simpl; auto.
  rewrite gather_directories_app, (gather_directories_app _ ts2).
  apply Permutation_app; [apply IH|].
  destruct t1 as [|es1 err1], t2 as [|es2 err2]; simpl in Ht;
    try contradiction; auto.
  rewrite !add_toplevel_entries.
  apply Permutation_rev'. apply perm_flat_map; exact Ht.
Qed.

(** X6: the order of the stores does not depend on the order in which the
    file system lists the entries of each top-level: enumerations that list
    the same entries (and fail for the same top-levels) give the same
    stores in the same order, since distinct subdirectories have distinct
    sort keys. *)
Theorem X6_store_order_ignores_listing_order (ts1 ts2 : list Enumeration)
  (Hsame : Forall2 same_entries ts1 ts2) :
  add_all_authorization_stores ts1 = add_all_authorization_stores ts2.
Proof.
  unfold add_all_authorization_stores.
  apply sorted_unique; try apply g_list_sort_sorted.
  - eapply perm_trans; [apply g_list_sort_perm|].
    eapply perm_trans; [apply gather_directories_perm, Hsame|].
    apply Permutation_sym, g_list_sort_perm.
  - intros x y Hx Hy. rewrite in_g_list_sort in Hx, Hy.
    pose proof (gather_keys 0 ts1 [] (Forall_nil _)) as Hk.
    rewrite Forall_forall in Hk.
    apply key_determines_entry; apply Hk; assumption.
Qed.

Lemma X6_store_order_ignores_listing_order_witness :
  add_all_authorization_stores
    [Enumerated [("b", Directory); ("x.pkla", RegularFile); ("a", Directory)]
       false; EnumFailed; Enumerated [("a", Directory)] true]
  = add_all_authorization_stores
      [Enumerated [("a", Directory); ("b", Directory); ("x.pkla", RegularFile)]
         true; EnumFailed; Enumerated [("a", Directory)] false].
Proof.
  apply X6_store_order_ignores_listing_order.
  repeat constructor; simpl.
  eapply perm_trans; [apply perm_skip, perm_swap|apply perm_swap].
Defined.

Lemma in_add_toplevel n e ds x :
  In x (add_toplevel n e ds)
  <-> In x ds
      \/ exists entries err name,
           e = Enumerated entries err /\ In (name, Directory) entries
           /\ x = {| dir_toplevel := n; dir_name := name;
                     sort_key := name ++ "-" ++ decimal n |}.
Proof.
  destruct e as [|entries err].
  - simpl. split; [auto|]. intros [H|(? & ? & ? & E & _)]; [auto|discriminate].
  - rewrite add_toplevel_app, add_toplevel_entries, in_app_iff, <- in_rev,
      in_flat_map.
    split.
    + intros [([name ty] & Hin & Hx)|H]; [right|left; exact H].
      destruct ty; simpl in Hx; try contradiction.
      destruct Hx as [<-|[]]. exists entries, err, name. auto.
    + intros [H|(es & er & name & E & Hin & ->)]; [right; exact H|left].
      inversion E; subst. exists (name, Directory). simpl; auto.
Qed.

Lemma in_gather_directories n ts ds x :
  In x (gather_directories n ts ds)
  <-> In x ds
      \/ exists k entries err name,
           nth_error ts k = Some (Enumerated entries err)
           /\ In (name, Directory) entries
           /\ x = {| dir_toplevel := n + k; dir_name := name;
                     sort_key := name ++ "-" ++ decimal (n + k) |}.
Proof.
  revert n ds; induction ts as [|t ts IH]; intros n ds; simpl.
  - split; [auto|]. intros [H|(k & ? & ? & ? & E & _)]; [auto|].
    destruct k; discriminate.
  - rewrite IH, in_add_toplevel. split.
    + intros [[H|(es & er & name & E & Hin & Hx)]|(k & es & er & name & E & Hin & Hx)].
      * left; exact H.
      * right. exists 0, es, er, name. subst. rewrite Nat.add_0_r. auto.
      * right. exists (S k), es, er, name. rewrite Nat.add_succ_r. auto.
    + intros [H|([|k] & es & er & name & E & Hin & Hx)].
      * left; left; exact H.
      * left; right. exists es, er, name. simpl in E. inversion E; subst.
        rewrite Nat.add_0_r. auto.
      * right. exists k, es, er, name.
        replace (S n + k) with (n + S k) by lia. auto.
Qed.

(** X7: the stores are exactly the subdirectories of the top-levels that
    could be enumerated: a top-level whose enumerator cannot be created adds
    nothing, entries that are not directories add nothing, and the
    subdirectories listed before an enumeration error are kept. The
    subdirectory [name] of the [k]-th path becomes the store with sort key
    ["name-k"]. *)
Theorem X7_stores_are_listed_subdirectories (toplevels : list Enumeration)
  (x : DirEntry) :
  In x (add_all_authorization_stores toplevels)
  <-> exists k entries error_after name,
        nth_error toplevels k = Some (Enumerated entries error_after)
        /\ In (name, Directory) entries
        /\ x = {| dir_toplevel := k; dir_name := name;
                  sort_key := name ++ "-" ++ decimal k |}.
Proof.
  unfold add_all_authorization_stores.
  rewrite in_g_list_sort, in_gather_directories. simpl.
  split; [intros [[]|H]; exact H|intro H; right; exact H].
Qed.

(* ------------------------------------------------------------------ *)
(** ** Store paths *)

Lemma split_semicolons_not_nil s : split_semicolons s <> [].
Proof.
  destruct s as [|c s]; simpl; [discriminate|].
  destruct (Ascii.eqb c ";"%char); [discriminate|].
  destruct (split_semicolons s); discriminate.
Qed.

Lemma concat_split_semicolons s :
  String.concat ";" (split_semicolons s) = s
  /\ Forall (fun p => excludes_char ";" p = true) (split_semicolons s).
Proof.
  induction s as [|c s [IHc IHf]]; simpl; [split; auto|].
  pose proof (split_semicolons_not_nil s) as Hne.
  destruct (Ascii.eqb_spec c ";"%char) as [->|Hc].
  - destruct (split_semicolons s) as [|t ts]; [congruence|].
    split; [rewrite <- IHc; reflexivity|constructor; auto].
  - destruct (split_semicolons s) as [|t ts]; [congruence|].
    apply Forall_cons_iff in IHf as [Ht Hts]. split.
    + rewrite <- IHc. destruct ts; reflexivity.
    + constructor; auto. simpl.
      destruct (Ascii.eqb_spec c ";"%char); [contradiction|assumption].
Qed.

Lemma split_semicolons_excludes p :
  excludes_char ";" p = true -> split_semicolons p = [p].
Proof.
  induction p as [|c p IH]; simpl; auto.
  destruct (Ascii.eqb_spec c ";"%char); simpl; [discriminate|].
  intro H; rewrite IH by exact H. reflexivity.
Qed.

Lemma split_semicolons_app p s :
  excludes_char ";" p = true ->
  split_semicolons (p ++ String ";" s) = p :: split_semicolons s.
Proof.
  induction p as [|c p IH]; simpl; auto.
  destruct (Ascii.eqb_spec c ";"%char); simpl; [discriminate|].
  intro H; rewrite IH by exact H. reflexivity.
Qed.

(** X8: [set_auth_store_paths] splits the string at every [';']: the
    resulting paths contain no [';'] and, joined back with [';'], give the
    string; the empty string gives no path (so no store). *)
Theorem X8_store_paths_split (priv : LocalAuthorityPriv) (paths : string) :
  let ps := authorization_store_paths (set_auth_store_paths priv paths) in
  String.concat ";" ps = paths
  /\ Forall (fun p => excludes_char ";" p = true) ps
  /\ (paths = "" -> ps = []).
Proof.
  simpl. unfold g_strsplit_semicolon.
  destruct paths as [|c s]; [repeat split; auto|].
  destruct (concat_split_semicolons (String c s)) as [H1 H2].
  repeat split; auto. discriminate.
Qed.

(** X9: paths without [';'] joined with [';'] (as the test builds its two
    top-levels) are split back into the same list by
    [set_auth_store_paths], unless the joined string is empty. *)
Theorem X9_joined_paths_split_back (priv : LocalAuthorityPriv)
  (ps : list string)
  (Hnosep : Forall (fun p => excludes_char ";" p = true) ps)
  (Hnonempty : String.concat ";" ps <> "") :
  authorization_store_paths
    (set_auth_store_paths priv (String.concat ";" ps)) = ps.
Proof.
  simpl. unfold g_strsplit_semicolon.
  assert (Hs : split_semicolons (String.concat ";" ps) = ps).
  { destruct ps as [|p ps]; [contradiction|].
    clear Hnonempty. revert p Hnosep.
    induction ps as [|q ps IH]; intros p H; inversion H; subst.
    - apply split_semicolons_excludes; assumption.
    - change (String.concat ";" (p :: q :: ps))
        with (p ++ String ";" (String.concat ";" (q :: ps))).
      rewrite split_semicolons_app by assumption.
      rewrite IH by assumption. reflexivity. }
  destruct (String.concat ";" ps); [contradiction|exact Hs].
Qed.

Lemma X9_joined_paths_split_back_witness :
  authorization_store_paths
    (set_auth_store_paths local_authority_init
       (String.concat ";" ["/var/lib/polkit-1/localauthority";
                           "/etc/polkit-1/localauthority"]))
  = ["/var/lib/polkit-1/localauthority"; "/etc/polkit-1/localauthority"].
Proof.
  apply X9_joined_paths_split_back.
  - repeat constructor.
  - discriminate.
Defined.

(* ------------------------------------------------------------------ *)
(** ** Authority state *)

Lemma add_one_fold ds priv :
  fold_left add_one_authorization_store ds priv
  = {| authorization_store_paths := authorization_store_paths priv;
       authorization_stores := (authorization_stores priv ++ ds)%list |}.
Proof.
  revert priv; induction ds as [|d ds IH]; intro priv; simpl.
  - rewrite app_nil_r. destruct priv; reflexivity.
  - rewrite IH. simpl. rewrite <- app_assoc. reflexivity.
Qed.

Lemma last_cons {A : Type} (l : list A) (e d : A) :
  last (e :: l) d = last l e.
Proof.
  revert e d; induction l as [|f l IH]; intros e d; [reflexivity|].
  change (last (e :: f :: l) d) with (last (f :: l) d).
  rewrite !IH. reflexivity.
Qed.

(** X10: [add_all_authorization_stores] appends a store for each
    subdirectory to the stores already there, so a rebuild must purge
    first; the monitor handler does: after it the stores are exactly those
    of the current contents of the top-levels, whatever stores there were
    before. Hence after construction and any sequence of change events the
    stores are those of the last file-system state. *)
Theorem X10_rebuild_tracks_filesystem (priv : LocalAuthorityPriv)
  (fs : FileSystem) (paths : string) (fs0 : FileSystem)
  (events : list FileSystem) :
  authorization_stores (add_all_authorization_stores_priv priv fs)
  = (authorization_stores priv
     ++ add_all_authorization_stores
          (map fs (authorization_store_paths priv)))%list
  /\ authorization_stores (on_toplevel_authority_store_monitor_changed priv fs)
     = add_all_authorization_stores (map fs (authorization_store_paths priv))
  /\ authorization_stores
       (fold_left on_toplevel_authority_store_monitor_changed events
          (construct_local_authority paths fs0))
     = add_all_authorization_stores
         (map (last events fs0) (g_strsplit_semicolon paths)).
Proof.
  split; [|split].
  - unfold add_all_authorization_stores_priv. rewrite add_one_fold.
    reflexivity.
  - unfold on_toplevel_authority_store_monitor_changed,
      add_all_authorization_stores_priv.
    rewrite add_one_fold. reflexivity.
  - assert (Hinv : forall priv fs1,
               authorization_store_paths priv = g_strsplit_semicolon paths ->
               authorization_stores priv
               = add_all_authorization_stores
                   (map fs1 (g_strsplit_semicolon paths)) ->
               authorization_stores
                 (fold_left on_toplevel_authority_store_monitor_changed events
                    priv)
               = add_all_authorization_stores
                   (map (last events fs1) (g_strsplit_semicolon paths))).
    { induction events as [|e events IH]; intros p fs1 Hp Hs;
        cbn [fold_left]; auto.
      rewrite IH with (fs1 := e).
      - rewrite last_cons. reflexivity.
      - unfold on_toplevel_authority_store_monitor_changed,
          add_all_authorization_stores_priv.
        rewrite add_one_fold. exact Hp.
      - unfold on_toplevel_authority_store_monitor_changed,
          add_all_authorization_stores_priv.
        rewrite add_one_fold. simpl. rewrite Hp. reflexivity. }
    apply Hinv; unfold construct_local_authority,
      add_all_authorization_stores_priv; rewrite add_one_fold; reflexivity.
Qed.

(* ------------------------------------------------------------------ *)
(** ** What the test reads back *)

(** X11: when [main] succeeds, the test's reading of its stdout (drop a
    final newline; empty means [unknown], anything else goes through
    [polkit_implicit_authorization_from_string]) gives back exactly the
    engine's answer, [unknown] included. *)
Theorem X11_test_reads_back_result (Store : Type)
  (lookup : Store -> option Identity -> string -> Details -> option Outcomes)
  (store_new : DirEntry -> Store * list string)
  (localstatedir sysconfdir : string) (env : Env) (fs : FileSystem)
  (auth_paths : option string) (prog user local active action_id : string)
  (uid : Z) (l a : bool)
  (Huser : env_user_for_name env user = Some uid)
  (Hlocal : parse_boolean local = Some l)
  (Hactive : parse_boolean active = Some a) :
  test_decode_stdout
    (stdout (pkla_check_authorization_main Store lookup store_new
               localstatedir sysconfdir env fs
               (OptionsParsed auth_paths [prog; user; local; active; action_id])))
  = Some (check_authorization_sync_cli Store lookup env
            (map fst (loaded_stores Store store_new fs
                        (auth_paths_or_default localstatedir sysconfdir
                           auth_paths)))
            uid l a action_id []).
Proof.
  unfold pkla_check_authorization_main. cbv beta iota zeta.
  rewrite Huser, Hlocal, Hactive. cbv beta iota zeta.
  destruct (check_authorization_sync_cli _ _ _ _ _ _ _ _ _); reflexivity.
Qed.

Lemma X11_test_reads_back_result_witness :
  test_decode_stdout
    (stdout (pkla_check_authorization_main RuleStore rule_store_lookup
               test_store_new "/var" "/etc" test_env test_fs
               (OptionsParsed None
                  ["pkla-check-authorization"; "sally"; "true"; "true";
                   defaults_action])))
  = Some AuthenticationRequired.
Proof.
  rewrite (X11_test_reads_back_result RuleStore rule_store_lookup
             test_store_new "/var" "/etc" test_env test_fs None
             "pkla-check-authorization" "sally" "true" "true"
             defaults_action 1000 true true eq_refl eq_refl eq_refl).
  vm_compute. reflexivity.
Defined.

(* ------------------------------------------------------------------ *)
(** ** Admin identities *)

Lemma admin_step_users env s :
  Forall (fun i => is_unix_user i = true) (admin_step env [] s).
Proof.
  unfold admin_step.
  destruct (env_identity_from_string env s) as [[uid|gid|name]|]; simpl.
  - repeat constructor.
  - rewrite get_users_in_group_members.
    destruct (env_getgrgid env gid); [|constructor].
    apply flat_map_opt_users, member_user_is_user.
  - rewrite get_users_in_net_group_triples.
    destruct (env_netgrent env name); [|constructor].
    apply flat_map_opt_users, triple_user_is_user.
  - constructor.
Qed.

(** X12: [get_admin_auth_identities] never returns an empty list, and
    every identity it returns is a [unix-user]: users are kept, groups and
    netgroups are replaced by their users, and the fallback is uid 0. *)
Theorem X12_admin_identities_nonempty_users (env : Env) :
  get_admin_auth_identities env <> []
  /\ Forall (fun i => is_unix_user i = true) (get_admin_auth_identities env).
Proof.
  unfold get_admin_auth_identities.
  assert (H : Forall (fun i => is_unix_user i = true)
                match env_admin_identities env with
                | inl admin_identities => admin_loop env [] admin_identities
                | inr _ => []
                end).
  { destruct (env_admin_identities env) as [entries|err]; [|constructor].
    induction entries as [|s entries IH]; [constructor|].
    unfold admin_loop; simpl. fold (admin_loop env (admin_step env [] s) entries).
    rewrite admin_loop_app. apply Forall_app; split; auto.
    apply admin_step_users. }
  destruct (match env_admin_identities env with
            | inl admin_identities => admin_loop env [] admin_identities
            | inr _ => []
            end) as [|i l].
  - split; [discriminate|repeat constructor].
  - split; [discriminate|exact H].
Qed.

(** X13: a user returned by [get_users_in_net_group] comes from a triple of
    the netgroup whose user name is set, is not ["-"], and resolves to that
    user; a netgroup that cannot be opened yields no user. *)
Theorem X13_netgroup_users_come_from_triples (env : Env) (name : string)
  (include_root : bool) :
  (env_netgrent env name = None ->
   get_users_in_net_group env name include_root = [])
  /\ forall i, In i (get_users_in_net_group env name include_root) ->
       exists triples host user domain uid,
         env_netgrent env name = Some triples
         /\ In (host, Some user, domain) triples
         /\ user <> "-"
         /\ env_user_for_name env user = Some uid
         /\ i = UnixUser uid.
Proof.
  rewrite get_users_in_net_group_triples. split.
  - intro E; rewrite E; reflexivity.
  - intros i Hi. destruct (env_netgrent env name) as [triples|]; [|destruct Hi].
    apply in_flat_map in Hi as ([[host [user|]] domain] & Hin & Hi);
      simpl in Hi; [|contradiction].
    destruct (String.eqb_spec user "-") as [_|Hne]; [contradiction|].
    destruct (env_user_for_name env user) as [uid|] eqn:E; simpl in Hi;
      [|contradiction].
    destruct Hi as [<-|[]].
    exists triples, host, user, domain, uid. auto.
Qed.
